(** * pynndescent/utils.py: random generator, sampler and neighbor heaps

    A shallow embedding of [pynndescent/utils.py].  NumPy arrays are lists
    read with [!!] and written with [<[ i := x ]>]; an access outside an
    array (Python's [IndexError]) and a division by zero make the embedded
    function return [None] (or [Raises]).  Rows and positions are natural
    numbers: the negative indices of NumPy are not used.  The [int64]
    words of the random state are integers of [Z] with the wrap-around of
    [<<] written out.  The [float64] weights of a heap are [-inf], the
    finite values (rationals here), [+inf] and NaN; every comparison with
    NaN is false, and on the other values the comparisons of the source
    are a total preorder. *)

From Stdlib Require Import ZArith QArith Lia.
From stdpp Require Import base option list.

Local Open Scope Z_scope.

(** ** Machine integers *)

(** An integer reduced to the signed [w]-bit range. *)
Definition wrap (w : Z) (z : Z) : Z :=
  (z + 2 ^ (w - 1)) mod 2 ^ w - 2 ^ (w - 1).

Definition wrap64 : Z → Z := wrap 64.
Definition wrap32 : Z → Z := wrap 32.

(** [x << n] on [int64]. *)
Definition shl64 (x n : Z) : Z := wrap64 (Z.shiftl x n).

(** ** Random generator *)

(** The state is an [int64] array; the generator uses its first three
    words. *)
Definition RngState : Type := list Z.

(** One word of [tau_rand_int]:
    [(((s & m) << a) & 0xffffffff) ^ ((((s << b) & 0xffffffff) ^ s) >> c)]. *)
Definition tau_word (m a b c : Z) (s : Z) : Z :=
  Z.lxor (Z.land (shl64 (Z.land s m) a) 0xffffffff)
         (Z.shiftr (Z.lxor (Z.land (shl64 s b) 0xffffffff) s) c).

(** [tau_rand_int(state)]: updates [state[0]], [state[1]] and [state[2]] in
    place and returns their xor as an [int32]. *)
Definition tau_rand_int (state : RngState) : option (RngState * Z) :=
  s0 ← state !! 0%nat;
  let state := <[0%nat := tau_word 4294967294 12 13 19 s0]> state in
  s1 ← state !! 1%nat;
  let state := <[1%nat := tau_word 4294967288 4 2 25 s1]> state in
  s2 ← state !! 2%nat;
  let state := <[2%nat := tau_word 4294967280 17 3 11 s2]> state in
  s0 ← state !! 0%nat;
  s1 ← state !! 1%nat;
  s2 ← state !! 2%nat;
  Some (state, wrap32 (Z.lxor (Z.lxor s0 s1) s2)).

(** [tau_rand(state)]: [float(integer) / 0x7fffffff].  The source returns
    this quotient rounded to [float32]; the value here is the quotient
    before the rounding, which is monotone and keeps the sign. *)
Definition tau_rand (state : RngState) : option (RngState * Q) :=
  '(state, integer) ← tau_rand_int state;
  Some (state, (inject_Z integer / inject_Z 0x7fffffff)%Q).

(** ** Weights *)

(** The values of [float64]. *)
Inductive float : Type :=
  | NInf : float
  | Fin (q : Q) : float
  | PInf : float
  | NaN : float.

(** [a < b] *)
Definition wlt (a b : float) : bool :=
  match a, b with
  | NaN, _ | _, NaN => false
  | PInf, _ | _, NInf => false
  | NInf, _ | _, PInf => true
  | Fin x, Fin y => match (x ?= y)%Q with Lt => true | _ => false end
  end.

(** [a <= b] *)
Definition wle (a b : float) : bool :=
  match a, b with
  | NaN, _ | _, NaN => false
  | NInf, _ | _, PInf => true
  | PInf, _ | _, NInf => false
  | Fin x, Fin y => match (x ?= y)%Q with Gt => false | _ => true end
  end.

(** [a > b] and [a >= b] *)
Definition wgt (a b : float) : bool := wlt b a.
Definition wge (a b : float) : bool := wle b a.

(** ** Neighbor heaps *)

(** A heap is the array [heap[3, n_points, size]]: plane 0 holds the
    indices, plane 1 the weights and plane 2 the flags.  The three planes
    have one shape, so the heap is a table of slots, and a row is
    [heap[0, row]], [heap[1, row]] and [heap[2, row]] read together.  The
    indices and the flags are integers stored in [float64] cells. *)
Record slot : Type := Slot {
  slot_index : Z;
  slot_weight : float;
  slot_is_new : Z
}.

Abbreviation heap := (list (list slot)).

Definition indices (r : list slot) : list Z := slot_index <$> r.
Definition weights (r : list slot) : list float := slot_weight <$> r.

(** [make_heap(n_points, size)] *)
Definition make_heap (n_points size : nat) : heap :=
  replicate n_points (replicate size (Slot (-1) PInf 0)).

(** [for i in range(indices.shape[0]): if index == indices[i]: return 0] *)
Fixpoint index_present (index : Z) (r : list slot) : bool :=
  match r with
  | [] => false
  | s :: r => if index =? slot_index s then true else index_present index r
  end.

(** The loop of [heap_push] that descends the heap: the children of [i]
    are compared with [weight], the larger one that is greater than
    [weight] is copied into [i] and the loop goes on from it.  Returns the
    row and the position [i] at the [break]; [fuel] bounds the number of
    iterations. *)
Fixpoint descend (fuel : nat) (weight : float) (r : list slot) (i : nat)
  : option (list slot * nat) :=
  match fuel with
  | O => None
  | S fuel =>
    let ic1 := (2 * i + 1)%nat in
    let ic2 := (ic1 + 1)%nat in
    let move (i_swap : nat) :=
      s ← r !! i_swap; descend fuel weight (<[i := s]> r) i_swap in
    if (length r <=? ic1)%nat then Some (r, i)
    else if (length r <=? ic2)%nat then
      c1 ← r !! ic1;
      if wgt (slot_weight c1) weight then move ic1 else Some (r, i)
    else
      c1 ← r !! ic1;
      c2 ← r !! ic2;
      if wge (slot_weight c1) (slot_weight c2) then
        if wlt weight (slot_weight c1) then move ic1 else Some (r, i)
      else
        if wlt weight (slot_weight c2) then move ic2 else Some (r, i)
  end.

(** [heap_push(heap, row, weight, index, flag)]: the heap after the call
    and the returned count. *)
Definition heap_push (h : heap) (row : nat) (weight : float) (index flag : Z)
  : option (heap * Z) :=
  r ← h !! row;
  root ← r !! 0%nat;
  if wgt weight (slot_weight root) then Some (h, 0)
  else if index_present index r then Some (h, 0)
  else
    let r := <[0%nat := Slot index weight flag]> r in
    '(r, i) ← descend (length r) weight r 0;
    let r := <[i := Slot index weight flag]> r in
    Some (<[row := r]> h, 1).

(** The two tuple assignments of [deheap_sort] that exchange the index and
    the weight of the positions [a] and [b]; the flags stay. *)
Definition swap_slots (r : list slot) (a b : nat)
  : option (list slot) :=
  sa ← r !! a;
  sb ← r !! b;
  Some (<[b := Slot (slot_index sa) (slot_weight sa) (slot_is_new sb)]>
        (<[a := Slot (slot_index sb) (slot_weight sb) (slot_is_new sa)]> r)).

(** The inner loop of [deheap_sort]: [while root * 2 + 1 < heap_end]. *)
Fixpoint sift_root (fuel : nat) (heap_end : Z) (r : list slot) (root : nat)
  : option (list slot) :=
  match fuel with
  | O => None
  | S fuel =>
    if Z.of_nat root * 2 + 1 <? heap_end then
      let left_child := (root * 2 + 1)%nat in
      let right_child := (left_child + 1)%nat in
      let swap := root in
      ws ← r !! swap;
      wl ← r !! left_child;
      let swap := if wlt (slot_weight ws) (slot_weight wl)
                  then left_child else swap in
      ws ← r !! swap;
      swap ← (if Z.of_nat right_child <? heap_end then
                wr ← r !! right_child;
                Some (if wlt (slot_weight ws) (slot_weight wr)
                      then right_child else swap)
              else Some swap);
      if (swap =? root)%nat then Some r
      else r ← swap_slots r root swap; sift_root fuel heap_end r swap
    else Some r
  end.

(** The loop [while heap_end >= 0] of [deheap_sort] on one row, entered
    with [heap_end = n - 1]. *)
Fixpoint unpack_row (n : nat) (r : list slot)
  : option (list slot) :=
  match n with
  | O => Some r
  | S n' =>
    let heap_end := Z.of_nat n - 1 in
    r ← swap_slots r 0 (Z.to_nat heap_end);
    let heap_end := heap_end - 1 in
    r ← sift_root (length r) heap_end r 0;
    unpack_row n' r
  end.

(** [deheap_sort(heap)]: the heap after the call, and the returned arrays
    of indices and of weights. *)
Definition deheap_sort (h : heap)
  : option (heap * (list (list Z) * list (list float))) :=
  h ← mapM (λ r, unpack_row (length r) r) h;
  Some (h, (indices <$> h, weights <$> h)).

(** The scan of [smallest_flagged] from position [i] on, with the running
    [min_dist] and [result_index]. *)
Fixpoint flagged_scan (r : list slot) (i : nat) (min_dist : float)
    (result_index : Z) : float * Z :=
  match r with
  | [] => (min_dist, result_index)
  | s :: r =>
    if negb (slot_is_new s =? 0) && wlt (slot_weight s) min_dist
    then flagged_scan r (S i) (slot_weight s) (Z.of_nat i)
    else flagged_scan r (S i) min_dist result_index
  end.

(** The value of [result_index] after the scan of the row. *)
Definition result_index (r : list slot) : Z :=
  (flagged_scan r 0 PInf (-1)).2.

(** A slot after its flag is set to 0. *)
Definition clear_flag (s : slot) : slot :=
  Slot (slot_index s) (slot_weight s) 0.

(** [smallest_flagged(heap, row)] *)
Definition smallest_flagged (h : heap) (row : nat) : option (heap * Z) :=
  r ← h !! row;
  let result_index := result_index r in
  if 0 <=? result_index then
    s ← r !! Z.to_nat result_index;
    let r := <[Z.to_nat result_index := clear_flag s]> r in
    Some (<[row := r]> h, slot_index s)
  else Some (h, -1).

(** [n] calls of [smallest_flagged] on one row, one after the other. *)
Fixpoint repeat_smallest_flagged (n : nat) (h : heap) (row : nat)
  : option heap :=
  match n with
  | O => Some h
  | S n => '(h, _) ← smallest_flagged h row; repeat_smallest_flagged n h row
  end.

(** ** Sampler *)

(** A call that may loop for ever is run with [fuel], a bound on the number
    of iterations of each [while] loop. *)
Inductive run (A : Type) : Type :=
  | Returns (a : A) : run A
  | Raises : run A
  | OutOfFuel : run A.
Arguments Returns {A} a.
Arguments Raises {A}.
Arguments OutOfFuel {A}.

(** [for k in range(i): if j == result[k]: break], the [else] branch of the
    [for] being taken when this returns [false]. *)
Fixpoint sample_taken (j : Z) (result : list Z) : bool :=
  match result with
  | [] => false
  | x :: result => if j =? x then true else sample_taken j result
  end.

(** [while reject_sample], for the accepted values [result] ([result[0]]
    to [result[i - 1]]).  [%] is Python's: the remainder has the sign of
    [pool_size]. *)
Fixpoint draw_sample (fuel : nat) (pool_size : Z) (result : list Z)
    (rng_state : RngState) : run (RngState * Z) :=
  match fuel with
  | O => OutOfFuel
  | S fuel =>
    match tau_rand_int rng_state with
    | None => Raises
    | Some (rng_state, x) =>
      if pool_size =? 0 then Raises
      else
        let j := x mod pool_size in
        if sample_taken j result
        then draw_sample fuel pool_size result rng_state
        else Returns (rng_state, j)
    end
  end.

(** [for i in range(n_samples)], with [n] iterations left. *)
Fixpoint sample_loop (fuel n : nat) (pool_size : Z) (result : list Z)
    (rng_state : RngState) : run (RngState * list Z) :=
  match n with
  | O => Returns (rng_state, result)
  | S n =>
    match draw_sample fuel pool_size result rng_state with
    | Returns (rng_state, j) =>
      sample_loop fuel n pool_size (result ++ [j]) rng_state
    | Raises => Raises
    | OutOfFuel => OutOfFuel
    end
  end.

(** [rejection_sample(n_samples, pool_size, rng_state)] *)
Definition rejection_sample (fuel n_samples : nat) (pool_size : Z)
    (rng_state : RngState) : run (RngState * list Z) :=
  sample_loop fuel n_samples pool_size [] rng_state.

(** ** Candidate graph builder *)

(** [for i in range(n): body], from [i = start] on. *)
Fixpoint for_range {S : Type} (body : nat → S → option S)
    (start n : nat) (s : S) : option S :=
  match n with
  | O => Some s
  | S n => s ← body start s; for_range body (Datatypes.S start) n s
  end.

(** The body of the loops of [build_candidates] at [(i, j)], on the graph,
    the candidate heap and the random state. *)
Definition candidate_slot (i j : nat) (s : heap * heap * RngState)
  : option (heap * heap * RngState) :=
  let '(current_graph, candidate_neighbors, rng_state) := s in
  r ← current_graph !! i;
  e ← r !! j;
  if slot_index e <? 0 then Some s
  else
    let idx := slot_index e in
    let isn := slot_is_new e in
    '(rng_state, d) ← tau_rand rng_state;
    '(candidate_neighbors, _) ←
      heap_push candidate_neighbors i (Fin d) idx isn;
    '(candidate_neighbors, _) ←
      heap_push candidate_neighbors (Z.to_nat idx) (Fin d) (Z.of_nat i) isn;
    let r := <[j := clear_flag e]> r in
    Some (<[i := r]> current_graph, candidate_neighbors, rng_state).

(** [build_candidates(current_graph, n_vertices, n_neighbors,
    max_candidates, rng_state)]: the graph and the random state after the
    call, and the returned candidate heap. *)
Definition build_candidates (current_graph : heap)
    (n_vertices n_neighbors max_candidates : nat) (rng_state : RngState)
  : option (heap * heap * RngState) :=
  let candidate_neighbors := make_heap n_vertices max_candidates in
  for_range (λ i, for_range (λ j, candidate_slot i j) 0 n_neighbors)
    0 n_vertices (current_graph, candidate_neighbors, rng_state).

(** * Specifications *)

(** ** The invariant of a row *)

(** [c] is a child position of [p]. *)
Definition child (p c : nat) : Prop := (c = 2 * p + 1 ∨ c = 2 * p + 2)%nat.

(** [weights[p] >= weights[c]], where both positions are in range. *)
Definition ordered_at (r : list slot) (p c : nat) : Prop :=
  ∀ sp sc, r !! p = Some sp → r !! c = Some sc →
    wge (slot_weight sp) (slot_weight sc).

(** The max-heap property of a row. *)
Definition max_heap (r : list slot) : Prop :=
  ∀ p c, child p c → ordered_at r p c.

(** No two slots of a row hold the same index, the sentinel -1 apart. *)
Definition distinct_indices (r : list slot) : Prop :=
  ∀ i j si sj, r !! i = Some si → r !! j = Some sj →
    slot_index si = slot_index sj → slot_index si ≠ -1 → i = j.

(** A row with no NaN among its weights. *)
Definition no_nan (r : list slot) : Prop :=
  Forall (λ s, slot_weight s ≠ NaN) r.

(** The heaps that [make_heap] and calls of [heap_push] with weights other
    than NaN produce. *)
Inductive pushed_no_nan : heap → Prop :=
  | pushed_no_nan_make n_points size : pushed_no_nan (make_heap n_points size)
  | pushed_no_nan_push h row weight index flag h' count :
      pushed_no_nan h →
      weight ≠ NaN →
      heap_push h row weight index flag = Some (h', count) →
      pushed_no_nan h'.

(** The heaps that [make_heap] and calls of [heap_push] produce. *)
Inductive pushed : heap → Prop :=
  | pushed_make n_points size : pushed (make_heap n_points size)
  | pushed_push h row weight index flag h' count :
      pushed h →
      heap_push h row weight index flag = Some (h', count) →
      pushed h'.

(** The state of the loop of [heap_push] at position [i]: the row is a
    max-heap but for the slot [i], which is about to be overwritten; the
    parent of [i] dominates the children of [i] and the pushed weight. *)
Record hole_inv (weight : float) (r : list slot) (i : nat) : Prop := {
  hole_lt : (i < length r)%nat;
  hole_others : ∀ p c, child p c → p ≠ i → c ≠ i → ordered_at r p c;
  hole_grand : ∀ p c, child p i → child i c → ordered_at r p c;
  hole_parent : ∀ p sp, child p i → r !! p = Some sp →
                  wle weight (slot_weight sp)
}.

(** The distinct indices of a row, in the form that permutations
    respect. *)
Definition no_dup_index (r : list slot) : Prop :=
  NoDup (filter (λ k, k ≠ -1) (indices r)).

(** The invariant of the rows of a heap with no NaN. *)
Definition row_inv (r : list slot) : Prop :=
  max_heap r ∧ no_dup_index r ∧ no_nan r.

(** ** The results of [deheap_sort] and [smallest_flagged] *)

(** The (index, weight) pairs of a row. *)
Definition pairs (r : list slot) : list (Z * float) :=
  (λ s, (slot_index s, slot_weight s)) <$> r.

(** Weights in ascending order. *)
Definition ascending (ws : list float) : Prop :=
  ∀ i j a b, (i < j)%nat → ws !! i = Some a → ws !! j = Some b → wle a b.

(** A slot that the scan can select: flagged, with a weight below [+inf]. *)
Definition selectable (s : slot) : Prop :=
  slot_is_new s ≠ 0 ∧ wlt (slot_weight s) PInf.

(** ** Runs of the random generator and of the sampler *)

(** The calls of a client on one random state, and what they return. *)
Inductive call : Type := CallTauRandInt | CallTauRand.
Inductive output : Type := OutInt (i : Z) | OutFloat (x : Q).

Definition run_call (c : call) (state : RngState)
  : option (RngState * output) :=
  match c with
  | CallTauRandInt => '(state, i) ← tau_rand_int state; Some (state, OutInt i)
  | CallTauRand => '(state, x) ← tau_rand state; Some (state, OutFloat x)
  end.

Fixpoint run_calls (cs : list call) (state : RngState)
  : option (RngState * list output) :=
  match cs with
  | [] => Some (state, [])
  | c :: cs =>
    '(state, o) ← run_call c state;
    '(state, os) ← run_calls cs state;
    Some (state, o :: os)
  end.

(** The three words of a state that the generator uses. *)
Definition words (state : RngState) : list Z := take 3 state.

(** Accepted samples: pairwise distinct values of [[0, pool_size)]. *)
Definition samples (pool_size : Z) (result : list Z) : Prop :=
  NoDup result ∧ ∀ x, x ∈ result → 0 ≤ x < pool_size.

(** ** The edges of a graph *)

(** The slot [(i, j)] of a heap. *)
Definition slot_at (h : heap) (i j : nat) : option slot :=
  r ← h !! i; r !! j.

(** An edge of the graph: the slot [(i, j)] holds the index [nb >= 0] and
    the flag [f]. *)
Record edge : Type := Edge { edge_i : nat; edge_nb : Z; edge_flag : Z }.

Definition edge_at (graph : heap) (p : nat * nat) : list edge :=
  match slot_at graph p.1 p.2 with
  | Some e =>
    if slot_index e <? 0 then []
    else [Edge p.1 (slot_index e) (slot_is_new e)]
  | None => []
  end.

(** The slots [(i, j)] for [i < n_vertices] and [j < n_neighbors], row by
    row. *)
Definition slots (n_vertices n_neighbors : nat) : list (nat * nat) :=
  i ← seq 0 n_vertices; (λ j, (i, j)) <$> seq 0 n_neighbors.

(** The edges of a graph, in the order of their slots. *)
Definition graph_edges (graph : heap) (n_vertices n_neighbors : nat)
  : list edge :=
  slots n_vertices n_neighbors ≫= edge_at graph.

(** What the call does for one edge: one draw [d], then the pushes of
    [(i, d, nb, f)] and of [(nb, d, i, f)], whatever they return. *)
Definition push_edge (e : edge) (s : heap * RngState)
  : option (heap * RngState) :=
  let '(candidate_neighbors, rng_state) := s in
  '(rng_state, d) ← tau_rand rng_state;
  '(candidate_neighbors, _) ←
    heap_push candidate_neighbors (edge_i e) (Fin d) (edge_nb e)
      (edge_flag e);
  '(candidate_neighbors, _) ←
    heap_push candidate_neighbors (Z.to_nat (edge_nb e)) (Fin d)
      (Z.of_nat (edge_i e)) (edge_flag e);
  Some (candidate_neighbors, rng_state).

(** A sequence of steps, each of which may raise. *)
Fixpoint run_all {A S : Type} (f : A → S → option S) (l : list A) (s : S)
  : option S :=
  match l with
  | [] => Some s
  | a :: l => s ← f a s; run_all f l s
  end.


(** The capacity of each row of a heap. *)
Definition shape (h : heap) : list nat := length <$> h.

(** ** Further notions *)

(** The slot that [make_heap] writes everywhere. *)
Definition empty_slot : slot := Slot (-1) PInf 0.

(** The slot that a call of [smallest_flagged] on the row selects. *)
Definition selected (r : list slot) : option slot :=
  if 0 <=? result_index r then r !! Z.to_nat (result_index r) else None.

(** A state word within 32 bits. *)
Definition word32 (s : Z) : Prop := 0 ≤ s < 2 ^ 32.

(** A state whose three words are below the least seeds of the generator:
    2, 8 and 16. *)
Definition weak_seed (state : RngState) : Prop :=
  ∃ s0 s1 s2 rest,
    state = s0 :: s1 :: s2 :: rest ∧
    0 ≤ s0 < 2 ∧ 0 ≤ s1 < 8 ∧ 0 ≤ s2 < 16.

(** The slot [s] of the row [v] of a candidate heap stands for an edge of
    [graph] between [v] and the index of [s], one way or the other, and
    carries the flag of that edge. *)
Definition candidate_of (graph : heap) (n_vertices n_neighbors : nat)
    (v : nat) (s : slot) : Prop :=
  ∃ i j e,
    (i < n_vertices)%nat ∧ (j < n_neighbors)%nat ∧
    slot_at graph i j = Some e ∧ 0 ≤ slot_index e ∧
    slot_is_new s = slot_is_new e ∧
    ((i = v ∧ slot_index s = slot_index e) ∨
     (Z.to_nat (slot_index e) = v ∧ slot_index s = Z.of_nat i)).

(** The slot [e] left the row [row] in a push, on the way from [make_heap]
    to the heap by pushes of weights that are not NaN. *)
Inductive evicted : heap → nat → slot → Prop :=
  | evicted_now h row weight index flag h' root rest :
      pushed_no_nan h →
      weight ≠ NaN →
      heap_push h row weight index flag = Some (h', 1) →
      h !! row = Some (root :: rest) →
      evicted h' row root
  | evicted_later h row e row' weight index flag h' count :
      evicted h row e →
      weight ≠ NaN →
      heap_push h row' weight index flag = Some (h', count) →
      evicted h' row e.

(** The number of slots of a row that the scan of [smallest_flagged] can
    select. *)
Fixpoint selectable_count (r : list slot) : nat :=
  match r with
  | [] => 0
  | s :: r =>
    (if negb (slot_is_new s =? 0) && wlt (slot_weight s) PInf
     then 1 else 0) + selectable_count r
  end.

(** * Properties *)

(** ** The order on weights *)

Section float_order.
Implicit Types a b c : float.

Lemma wle_Qle x y : wle (Fin x) (Fin y) ↔ (x <= y)%Q.
Proof.
  simpl. rewrite Qle_alt.
  destruct (x ?= y)%Q; simpl; split; intros H; try done.
Qed.

Lemma wlt_Qlt x y : wlt (Fin x) (Fin y) ↔ (x < y)%Q.
Proof.
  simpl. rewrite Qlt_alt.
  destruct (x ?= y)%Q; simpl; split; intros H; try done.
Qed.

(** A comparison that holds is one of two values that are not NaN. *)
Lemma wle_not_nan a b : wle a b → a ≠ NaN ∧ b ≠ NaN.
Proof. by destruct a, b. Qed.

Lemma wlt_not_nan a b : wlt a b → a ≠ NaN ∧ b ≠ NaN.
Proof. by destruct a, b. Qed.

Lemma wle_nlt a b : a ≠ NaN → b ≠ NaN → wle a b = negb (wlt b a).
Proof.
  destruct a as [|x| |], b as [|y| |]; simpl; try done.
  intros _ _. rewrite <- (Qcompare_antisym x y).
  destruct (x ?= y)%Q; reflexivity.
Qed.

Lemma wle_refl a : a ≠ NaN → wle a a.
Proof.
  destruct a as [|x| |]; simpl; try done. intros _.
  rewrite (proj1 (Qeq_alt x x) (Qeq_refl x)). exact I.
Qed.

Lemma wle_trans a b c : wle a b → wle b c → wle a c.
Proof.
  destruct a as [|x| |], b as [|y| |], c as [|z| |]; try done.
  rewrite !wle_Qle. apply Qle_trans.
Qed.

Lemma wlt_wle a b : wlt a b → wle a b.
Proof.
  destruct a as [|x| |], b as [|y| |]; try done.
  rewrite wle_Qle, wlt_Qlt. apply Qlt_le_weak.
Qed.

Lemma wle_total a b : a ≠ NaN → b ≠ NaN → wle a b ∨ wle b a.
Proof.
  intros Ha Hb. rewrite (wle_nlt a b Ha Hb).
  destruct (wlt b a) eqn:E; [right|left; done].
  apply wlt_wle. rewrite E. done.
Qed.

Lemma wlt_false_wle a b : a ≠ NaN → b ≠ NaN → wlt a b = false → wle b a.
Proof. intros Ha Hb H. rewrite (wle_nlt b a Hb Ha), H. exact I. Qed.

Lemma wlt_wle_trans a b c : wlt a b → wle b c → wlt a c.
Proof.
  destruct a as [|x| |], b as [|y| |], c as [|z| |]; try done.
  rewrite wle_Qle, !wlt_Qlt. apply Qlt_le_trans.
Qed.

Lemma wle_not_wlt a b : wle a b → ¬ wlt b a.
Proof.
  intros H. destruct (wle_not_nan a b H) as [Ha Hb].
  rewrite (wle_nlt a b Ha Hb) in H. destruct (wlt b a); simpl in *; tauto.
Qed.

Lemma wle_of_not_wlt a b : a ≠ NaN → b ≠ NaN → ¬ wlt a b → wle b a.
Proof.
  intros Ha Hb. rewrite (wle_nlt b a Hb Ha).
  destruct (wlt a b); simpl; tauto.
Qed.

Lemma wlt_trans a b c : wlt a b → wlt b c → wlt a c.
Proof. intros Hab Hbc. apply (wlt_wle_trans a b c Hab), wlt_wle, Hbc. Qed.

Lemma wlt_asym a b : wlt a b → ¬ wlt b a.
Proof. intros H. by apply wle_not_wlt, wlt_wle. Qed.

Lemma wlt_irrefl a : ¬ wlt a a.
Proof. intros H. by apply (wlt_asym a a). Qed.

End float_order.

(** ** Rejected pushes *)

Lemma index_present_elem_of (index : Z) (r : list slot) :
  index_present index r = true ↔ index ∈ indices r.
Proof.
  unfold indices. induction r as [|s r IH]; simpl.
  - split; [done | intros H; inversion H].
  - rewrite elem_of_cons. destruct (Z.eqb_spec index (slot_index s)).
    + split; auto.
    + rewrite IH. split; [auto | intros [?|?]; done].
Qed.

(** The two tests at the head of [heap_push]. *)
Lemma heap_push_rejected (h : heap) (row : nat) (r : list slot) (root : slot)
    (weight : float) (index flag : Z) :
  h !! row = Some r →
  r !! 0%nat = Some root →
  wgt weight (slot_weight root) = true ∨ index_present index r = true →
  heap_push h row weight index flag = Some (h, 0).
Proof.
  intros Hr Hroot Hrej. unfold heap_push.
  rewrite Hr; simpl. rewrite Hroot; simpl.
  destruct (wgt weight (slot_weight root)); [done|].
  destruct Hrej as [?| ->]; done.
Qed.

(** C2, as amended: [heap_push] returns 0 and leaves the heap as it is
    when the weight is greater than the weight at the root of the row, or
    when the index is present in the row. *)
Theorem heap_push_reject (h : heap) (row : nat) (r : list slot) (root : slot)
    (weight : float) (index flag : Z) :
  h !! row = Some r →
  r !! 0%nat = Some root →
  wgt weight (slot_weight root) ∨ index ∈ indices r →
  heap_push h row weight index flag = Some (h, 0).
Proof.
  intros Hr Hroot Hrej. apply (heap_push_rejected h row r root); try done.
  destruct Hrej as [H|H].
  - left. by apply Is_true_true.
  - right. by apply index_present_elem_of.
Qed.

Lemma heap_push_reject_witness :
  heap_push [[Slot 1 (Fin 5) 1; Slot 2 (Fin 3) 0]] 0 (Fin 6) 7 1
  = Some ([[Slot 1 (Fin 5) 1; Slot 2 (Fin 3) 0]], 0).
Proof.
  apply (heap_push_reject _ 0 [Slot 1 (Fin 5) 1; Slot 2 (Fin 3) 0]
           (Slot 1 (Fin 5) 1)); [reflexivity | reflexivity |].
  left. exact I.
Defined.

(** C2, as the claim states it, fails: a weight equal to the weight at the
    root passes the test [weight > weights[0]], and the push replaces the
    root.  The heap is the one that [make_heap(1, 1)] and the push of the
    index 1 with the weight 5 produce. *)
Lemma heap_push_equal_weight_accepted :
  ¬ (∀ (h : heap) (row : nat) (r : list slot) (root : slot)
       (weight : float) (index flag : Z),
       pushed h →
       h !! row = Some r →
       r !! 0%nat = Some root →
       wge weight (slot_weight root) ∨ index ∈ indices r →
       heap_push h row weight index flag = Some (h, 0)).
Proof.
  intros H.
  assert (pushed [[Slot 1 (Fin 5) 1]]) as Hp.
  { apply (pushed_push (make_heap 1 1) 0 (Fin 5) 1 1 _ 1); [|reflexivity].
    apply pushed_make. }
  specialize (H [[Slot 1 (Fin 5) 1]] 0%nat [Slot 1 (Fin 5) 1]
                (Slot 1 (Fin 5) 1) (Fin 5) 2 0 Hp eq_refl eq_refl).
  discriminate H. left. exact I.
Qed.

(** C10: while a row holds the index -1 in some slot, a push of the index
    -1 into it returns 0 and leaves the heap as it is, whatever the weight
    and the flag. *)
Theorem heap_push_sentinel (h : heap) (row : nat) (r : list slot)
    (weight : float) (flag : Z) :
  h !! row = Some r →
  -1 ∈ indices r →
  heap_push h row weight (-1) flag = Some (h, 0).
Proof.
  intros Hr Hin.
  assert (∃ root, r !! 0%nat = Some root) as [root Hroot].
  { destruct r as [|s r]; [inversion Hin | by exists s]. }
  apply (heap_push_rejected h row r root); try done.
  right. by apply index_present_elem_of.
Qed.

Lemma heap_push_sentinel_witness :
  heap_push [[Slot 4 (Fin 5) 1; Slot (-1) PInf 0]] 0 (Fin 2) (-1) 1
  = Some ([[Slot 4 (Fin 5) 1; Slot (-1) PInf 0]], 0).
Proof.
  apply (heap_push_sentinel _ 0 [Slot 4 (Fin 5) 1; Slot (-1) PInf 0]);
    [reflexivity |].
  apply list_elem_of_In. simpl. right. left. reflexivity.
Defined.

(** ** The invariant of a row *)

Section descend.
Variables (weight : float) (x : slot).
Hypothesis x_weight : slot_weight x = weight.

Lemma hole_inv_root (r : list slot) :
  r ≠ [] → max_heap r → hole_inv weight (<[0%nat := x]> r) 0.
Proof.
  intros Hne Hheap. split.
  - rewrite length_insert. destruct r; [done | simpl; lia].
  - intros p c Hc Hp0 Hc0 sp sc.
    rewrite !list_lookup_insert_ne by done. by apply Hheap.
  - intros p c Hc. unfold child in Hc. lia.
  - intros p sp Hc. unfold child in Hc. lia.
Qed.

(** Leaving the loop at [i]: no child of [i] is above [weight]. *)
Lemma hole_inv_stop (r : list slot) (i : nat) :
  hole_inv weight r i →
  (∀ c sc, child i c → r !! c = Some sc → wle (slot_weight sc) weight) →
  max_heap (<[i := x]> r).
Proof.
  intros [Hlt Hoth Hgr Hpar] Hch p c Hc sp sc.
  destruct (decide (p = i)) as [->|Hp].
  - assert (c ≠ i) by (unfold child in Hc; lia).
    rewrite list_lookup_insert_eq, list_lookup_insert_ne by done.
    intros [= <-] Hsc. rewrite x_weight. unfold wge. by eapply Hch.
  - destruct (decide (c = i)) as [->|Hci].
    + rewrite list_lookup_insert_eq, list_lookup_insert_ne by done.
      intros Hsp [= <-]. rewrite x_weight. unfold wge. by eapply Hpar.
    + rewrite !list_lookup_insert_ne by done. by apply Hoth.
Qed.

(** Going down from [i] to its child [s], the greater of the children
    of [i]. *)
Lemma hole_inv_move (r : list slot) (i s : nat) (ss : slot) :
  hole_inv weight r i →
  child i s →
  r !! s = Some ss →
  wle weight (slot_weight ss) →
  (∀ c sc, child i c → r !! c = Some sc →
     wle (slot_weight sc) (slot_weight ss)) →
  hole_inv weight (<[i := ss]> r) s.
Proof.
  intros [Hlt Hoth Hgr Hpar] His Hs Hw Hmax.
  assert (s ≠ i) as Hsi by (unfold child in His; lia).
  split.
  - rewrite length_insert. by eapply lookup_lt_Some.
  - intros p c Hc Hp Hcs sp sc.
    destruct (decide (p = i)) as [->|Hpi].
    + assert (c ≠ i) by (unfold child in Hc; lia).
      rewrite list_lookup_insert_eq, list_lookup_insert_ne by done.
      intros [= <-] Hsc. unfold wge. by eapply Hmax.
    + destruct (decide (c = i)) as [->|Hci].
      * rewrite list_lookup_insert_eq, list_lookup_insert_ne by done.
        intros Hsp [= <-]. by eapply (Hgr p s).
      * rewrite !list_lookup_insert_ne by done. by apply Hoth.
  - intros p c Hp Hc sp sc.
    assert (p = i) as -> by (unfold child in *; lia).
    assert (c ≠ i) by (unfold child in *; lia).
    rewrite list_lookup_insert_eq, list_lookup_insert_ne by done.
    intros [= <-] Hsc. by apply (Hoth s c).
  - intros p sp Hp.
    assert (p = i) as -> by (unfold child in *; lia).
    rewrite list_lookup_insert_eq by done. by intros [= <-].
Qed.
End descend.

(** One iteration of the loop of [heap_push], read off [descend]: it
    either leaves the loop, or goes on from a child of [i] that is above
    [weight].  Where no weight is NaN, no child of [i] is above [weight]
    when the loop is left, and the child it goes on from is the greater
    one. *)
Lemma descend_inv (fuel : nat) (weight : float) (r : list slot) (i : nat)
    (r' : list slot) (i' : nat) :
  descend fuel weight r i = Some (r', i') →
  (r' = r ∧ i' = i ∧
   (weight ≠ NaN → no_nan r →
    ∀ c sc, child i c → r !! c = Some sc → wle (slot_weight sc) weight))
  ∨ (∃ fuel' s ss,
       fuel = S fuel' ∧ child i s ∧ r !! s = Some ss ∧
       wlt weight (slot_weight ss) ∧
       (no_nan r →
        ∀ c sc, child i c → r !! c = Some sc →
          wle (slot_weight sc) (slot_weight ss)) ∧
       descend fuel' weight (<[i := ss]> r) s = Some (r', i')).
Proof.
  destruct fuel as [|fuel]; [done|]. cbn [descend]. intros H.
  assert (∀ k sk, no_nan r → r !! k = Some sk → slot_weight sk ≠ NaN)
    as Hnan.
  { intros k sk Hnn Hk. by apply (Forall_lookup_1 _ _ _ _ Hnn Hk). }
  destruct (Nat.leb_spec (length r) (2 * i + 1)) as [Hl1|Hl1].
  { injection H as <- <-. left. split; [done|]. split; [done|].
    intros _ _ c sc Hc Hsc. apply lookup_lt_Some in Hsc.
    unfold child in Hc. lia. }
  destruct (r !! (2 * i + 1)%nat) as [c1|] eqn:Hc1;
    [|by destruct (_ <=? _)%nat].
  assert (child i (2 * i + 1)) as Hch1 by (left; done).
  destruct (Nat.leb_spec (length r) (2 * i + 1 + 1)) as [Hl2|Hl2];
    cbn -[Nat.mul Nat.add] in H.
  { assert (∀ c sc, child i c → r !! c = Some sc → sc = c1) as Honly.
    { intros c sc [->| ->] Hsc; [congruence|].
      apply lookup_lt_Some in Hsc. lia. }
    unfold wgt in H. destruct (wlt weight (slot_weight c1)) eqn:Hw.
    - right. exists fuel, (2 * i + 1)%nat, c1.
      split; [done|]. split; [done|]. split; [done|].
      split; [by rewrite Hw|]. split; [|done].
      intros Hnn c sc Hc Hsc. rewrite (Honly c sc Hc Hsc).
      apply wle_refl. by apply (Hnan (2 * i + 1)%nat).
    - injection H as <- <-. left. split; [done|]. split; [done|].
      intros Hwn Hnn c sc Hc Hsc. rewrite (Honly c sc Hc Hsc).
      apply wlt_false_wle; [done| |done]. by apply (Hnan (2 * i + 1)%nat). }
  destruct (r !! (2 * i + 1 + 1)%nat) as [c2|] eqn:Hc2; [|done].
  cbn -[Nat.mul Nat.add] in H.
  assert (∀ c sc, child i c → r !! c = Some sc → sc = c1 ∨ sc = c2) as Hboth.
  { intros c sc [->| ->] Hsc; [left; congruence|right].
    replace (2 * i + 2)%nat with (2 * i + 1 + 1)%nat in Hsc by lia.
    congruence. }
  unfold wge in H. destruct (wle (slot_weight c2) (slot_weight c1)) eqn:H21.
  - destruct (wlt weight (slot_weight c1)) eqn:Hw.
    + right. exists fuel, (2 * i + 1)%nat, c1.
      split; [done|]. split; [done|]. split; [done|].
      split; [by rewrite Hw|]. split; [|done].
      intros Hnn c sc Hc Hsc.
      destruct (Hboth c sc Hc Hsc) as [-> | ->]; [|by rewrite H21].
      apply wle_refl. by apply (Hnan (2 * i + 1)%nat).
    + injection H as <- <-. left. split; [done|]. split; [done|].
      intros Hwn Hnn.
      assert (wle (slot_weight c1) weight) as H1w.
      { apply wlt_false_wle; [done| |done]. by apply (Hnan (2 * i + 1)%nat). }
      intros c sc Hc Hsc. destruct (Hboth c sc Hc Hsc) as [-> | ->]; [done|].
      apply (wle_trans _ (slot_weight c1)); [by rewrite H21 | done].
  - destruct (wlt weight (slot_weight c2)) eqn:Hw.
    + right. exists fuel, (2 * i + 1 + 1)%nat, c2.
      split; [done|]. split; [right; lia|]. split; [done|].
      split; [by rewrite Hw|]. split; [|done].
      intros Hnn.
      assert (slot_weight c1 ≠ NaN) as Hn1
        by (by apply (Hnan (2 * i + 1)%nat)).
      assert (slot_weight c2 ≠ NaN) as Hn2
        by (by apply (Hnan (2 * i + 1 + 1)%nat)).
      assert (wle (slot_weight c1) (slot_weight c2)) as H12.
      { destruct (wle_total (slot_weight c1) (slot_weight c2)) as [?|H'];
          [done..|]. by rewrite H21 in H'. }
      intros c sc Hc Hsc.
      destruct (Hboth c sc Hc Hsc) as [-> | ->]; [done | by apply wle_refl].
    + injection H as <- <-. left. split; [done|]. split; [done|].
      intros Hwn Hnn.
      assert (slot_weight c1 ≠ NaN) as Hn1
        by (by apply (Hnan (2 * i + 1)%nat)).
      assert (slot_weight c2 ≠ NaN) as Hn2
        by (by apply (Hnan (2 * i + 1 + 1)%nat)).
      assert (wle (slot_weight c1) (slot_weight c2)) as H12.
      { destruct (wle_total (slot_weight c1) (slot_weight c2)) as [?|H'];
          [done..|]. by rewrite H21 in H'. }
      assert (wle (slot_weight c2) weight) as H2w
        by (by apply wlt_false_wle).
      intros c sc Hc Hsc. destruct (Hboth c sc Hc Hsc) as [-> | ->]; [|done].
      by apply (wle_trans _ (slot_weight c2)).
Qed.

(** *** Writes that permute a row *)

Lemma insert_exchange {A : Type} (l : list A) (i : nat) (x y : A) :
  (i < length l)%nat → x :: <[i := y]> l ≡ₚ y :: <[i := x]> l.
Proof.
  revert i. induction l as [|a l IH]; intros [|i] Hi; simpl in *; try lia.
  - apply perm_swap.
  - rewrite (perm_swap a x), (perm_swap a y).
    apply perm_skip, IH. lia.
Qed.

(** Moving [l[s]] to position [i] and writing [x] at [s], against writing
    [x] at [i]. *)
Lemma insert_move_perm {A : Type} (l : list A) (i s : nat) (x b : A) :
  l !! s = Some b → i ≠ s → (i < length l)%nat →
  <[s := x]> (<[i := b]> l) ≡ₚ <[i := x]> l.
Proof.
  revert i s. induction l as [|a l IH]; intros [|i] [|s] Hs Hne Hi;
    simpl in *; try done; try lia.
  - rewrite <- (list_insert_id l s b) at 2 by done.
    symmetry. apply insert_exchange. by eapply lookup_lt_Some.
  - injection Hs as ->. apply insert_exchange. lia.
  - apply perm_skip, IH; [done | congruence | lia].
Qed.

(** Exchanging [l[a]] and [l[b]]. *)
Lemma insert_swap_perm {A : Type} (l : list A) (a b : nat) (x y : A) :
  l !! a = Some x → l !! b = Some y →
  <[b := x]> (<[a := y]> l) ≡ₚ l.
Proof.
  intros Ha Hb. destruct (decide (a = b)) as [->|Hne].
  - rewrite list_insert_insert_eq. assert (x = y) as -> by congruence.
    by rewrite list_insert_id.
  - rewrite (insert_move_perm l a b x y); try done.
    + by rewrite list_insert_id.
    + by eapply lookup_lt_Some.
Qed.

(** *** The loop of [heap_push] *)

Lemma descend_length (fuel : nat) (weight : float) (r : list slot) (i : nat)
    (r' : list slot) (i' : nat) :
  descend fuel weight r i = Some (r', i') → length r' = length r.
Proof.
  revert r i. induction fuel as [|fuel IH]; intros r i H; [done|].
  apply descend_inv in H
    as [(-> & _ & _)|(fuel' & s & ss & [= <-] & _ & _ & _ & _ & H)]; [done|].
  apply IH in H. by rewrite length_insert in H.
Qed.

(** Where no weight is NaN, the loop ends on a max-heap, once [weight] is
    written at the position where it stops. *)
Lemma descend_max_heap (fuel : nat) (weight : float) (x : slot)
    (r : list slot) (i : nat) (r' : list slot) (i' : nat) :
  slot_weight x = weight → weight ≠ NaN →
  descend fuel weight r i = Some (r', i') →
  no_nan r →
  hole_inv weight r i →
  max_heap (<[i' := x]> r').
Proof.
  intros Hx Hwn. revert r i.
  induction fuel as [|fuel IH]; intros r i H Hnn Hinv; [done|].
  apply descend_inv in H
    as [(-> & -> & Hch)|(fuel' & s & ss & [= <-] & Hs & Hss & Hw & Hmax & H)].
  - apply (hole_inv_stop weight); try done. by apply Hch.
  - apply (IH _ _ H).
    + apply Forall_insert; [done|]. by apply (Forall_lookup_1 _ _ _ _ Hnn Hss).
    + apply hole_inv_move; try done; [by apply wlt_wle | by apply Hmax].
Qed.

(** The loop moves slots up and loses none but the one at [i]. *)
Lemma descend_perm (fuel : nat) (weight : float) (x : slot)
    (r : list slot) (i : nat) (r' : list slot) (i' : nat) :
  descend fuel weight r i = Some (r', i') →
  (i < length r)%nat →
  <[i' := x]> r' ≡ₚ <[i := x]> r.
Proof.
  revert r i. induction fuel as [|fuel IH]; intros r i H Hi; [done|].
  apply descend_inv in H
    as [(-> & -> & _)|(fuel' & s & ss & [= <-] & Hs & Hss & _ & _ & H)]; [done|].
  rewrite (IH _ _ H).
  - apply insert_move_perm; [done | unfold child in Hs; lia | done].
  - rewrite length_insert. by eapply lookup_lt_Some.
Qed.

(** The loop ends within [length r - i] iterations. *)
Lemma descend_total (fuel : nat) (weight : float) (r : list slot) (i : nat) :
  (i < length r)%nat → (length r - i ≤ fuel)%nat →
  is_Some (descend fuel weight r i).
Proof.
  revert r i. induction fuel as [|fuel IH]; intros r i Hi Hfuel; [lia|].
  assert (∀ s ss, r !! s = Some ss → (i < s)%nat →
            is_Some (descend fuel weight (<[i := ss]> r) s)) as Hmove.
  { intros s ss Hss His. apply lookup_lt_Some in Hss.
    apply IH; rewrite length_insert; lia. }
  cbn [descend].
  destruct (Nat.leb_spec (length r) (2 * i + 1)) as [Hl1|Hl1]; [done|].
  destruct (lookup_lt_is_Some_2 r (2 * i + 1) Hl1) as [c1 Hc1].
  rewrite Hc1. cbn -[Nat.mul Nat.add].
  destruct (Nat.leb_spec (length r) (2 * i + 1 + 1)) as [Hl2|Hl2].
  - destruct (wgt _ _); [|done]. apply Hmove; [done | lia].
  - destruct (lookup_lt_is_Some_2 r (2 * i + 1 + 1) Hl2) as [c2 Hc2].
    rewrite Hc2. cbn -[Nat.mul Nat.add].
    destruct (wge _ _), (wlt _ _); try done; apply Hmove; try done; lia.
Qed.

(** *** [heap_push] keeps the invariant *)

(** The two ways out of [heap_push]. *)
Lemma heap_push_inv (h : heap) (row : nat) (weight : float) (index flag : Z)
    (h' : heap) (count : Z) :
  heap_push h row weight index flag = Some (h', count) →
  ∃ r root, h !! row = Some r ∧ r !! 0%nat = Some root ∧
    ((h' = h ∧ count = 0 ∧
      (wgt weight (slot_weight root) ∨ index ∈ indices r))
     ∨ (∃ r1 i,
          ¬ wgt weight (slot_weight root) ∧ (index ∉ indices r) ∧
          descend (length r) weight
            (<[0%nat := Slot index weight flag]> r) 0 = Some (r1, i) ∧
          h' = <[row := <[i := Slot index weight flag]> r1]> h ∧
          count = 1)).
Proof.
  unfold heap_push. intros H.
  destruct (h !! row) as [r|] eqn:Hr; [|done]. cbn in H.
  destruct (r !! 0%nat) as [root|] eqn:Hroot; [|done]. cbn in H.
  exists r, root. split; [done|]. split; [done|].
  destruct (wgt weight (slot_weight root)) eqn:Hw.
  { injection H as <- <-. left. repeat split. left. exact I. }
  destruct (index_present index r) eqn:Hp.
  { injection H as <- <-. left. repeat split. right.
    by apply index_present_elem_of. }
  rewrite length_insert in H.
  destruct (descend _ _ _ _) as [[r1 i]|] eqn:Hd; [|done]. cbn in H.
  injection H as <- <-. right. exists r1, i.
  split; [intros []|]. split; [|done].
  intros Hin. apply index_present_elem_of in Hin. congruence.
Qed.

Lemma NoDup_filter_lookup {A : Type} (P : A → Prop) `{!∀ x, Decision (P x)}
    (l : list A) (i j : nat) (x : A) :
  NoDup (filter P l) → l !! i = Some x → l !! j = Some x → P x → i = j.
Proof.
  revert i j. induction l as [|a l IH]; intros i j Hnd Hi Hj HP; [done|].
  rewrite filter_cons in Hnd. destruct (decide (P a)) as [Ha|Ha].
  - apply NoDup_cons in Hnd as [Hnotin Hnd].
    assert (∀ k, l !! k = Some a → False) as Habs.
    { intros k Hk. apply Hnotin, list_elem_of_filter. split; [done|].
      by eapply list_elem_of_lookup_2. }
    destruct i as [|i], j as [|j]; simpl in *; try done.
    + injection Hi as ->. by destruct (Habs j).
    + injection Hj as ->. by destruct (Habs i).
    + f_equal. by apply IH.
  - destruct i as [|i], j as [|j]; simpl in *; try congruence.
    f_equal. by apply IH.
Qed.

Lemma no_dup_index_distinct (r : list slot) :
  no_dup_index r → distinct_indices r.
Proof.
  intros Hnd i j si sj Hi Hj Heq Hne.
  apply (NoDup_filter_lookup (λ k, k ≠ -1) (indices r) i j (slot_index si));
    try done; unfold indices; rewrite list_lookup_fmap.
  - by rewrite Hi.
  - by rewrite Hj, Heq.
Qed.

Lemma row_inv_distinct (r : list slot) : row_inv r → distinct_indices r.
Proof. intros (_ & Hnd & _). by apply no_dup_index_distinct. Qed.

Lemma row_inv_make (size : nat) : row_inv (replicate size (Slot (-1) PInf 0)).
Proof.
  split; [|split].
  - intros p c _ sp sc Hp Hc.
    apply lookup_replicate_1 in Hp as [-> _].
    apply lookup_replicate_1 in Hc as [-> _]. exact I.
  - unfold no_dup_index, indices. rewrite fmap_replicate. simpl.
    induction size as [|size IH]; simpl; [constructor|].
    by rewrite filter_cons_False by (intros H; by apply H).
  - by apply Forall_replicate.
Qed.

(** The slots of a row after an accepted push. *)
Lemma descend_push_perm (r : list slot) (root : slot) (weight : float)
    (index flag : Z) (r1 : list slot) (i : nat) :
  r !! 0%nat = Some root →
  descend (length r) weight (<[0%nat := Slot index weight flag]> r) 0
    = Some (r1, i) →
  <[i := Slot index weight flag]> r1 ≡ₚ Slot index weight flag :: tail r.
Proof.
  intros Hroot Hd. rewrite (descend_perm _ _ _ _ _ _ _ Hd).
  - destruct r; [done|]. by rewrite list_insert_insert_eq.
  - rewrite length_insert. by eapply lookup_lt_Some.
Qed.

(** An accepted push on one row, whatever the weight. *)
Lemma no_dup_index_push (r : list slot) (root : slot) (weight : float)
    (index flag : Z) (r1 : list slot) (i : nat) :
  r !! 0%nat = Some root →
  index ∉ indices r →
  descend (length r) weight (<[0%nat := Slot index weight flag]> r) 0
    = Some (r1, i) →
  no_dup_index r →
  no_dup_index (<[i := Slot index weight flag]> r1).
Proof.
  intros Hroot Hnew Hd Hnd. unfold no_dup_index, indices in *.
  rewrite (descend_push_perm r root _ _ _ _ _ Hroot Hd).
  destruct r as [|s r]; [done|]. simpl in *.
  apply not_elem_of_cons in Hnew as [_ Hnew].
  assert (NoDup (filter (λ k, k ≠ -1) (slot_index <$> r))) as Hnd'.
  { rewrite filter_cons in Hnd. destruct (decide _); [|done].
    by apply NoDup_cons in Hnd as [_ ?]. }
  rewrite filter_cons. destruct (decide _); [|done].
  apply NoDup_cons. split; [|done].
  rewrite list_elem_of_filter. tauto.
Qed.

(** An accepted push of a weight that is not NaN on one row. *)
Lemma row_inv_push (r : list slot) (root : slot) (weight : float)
    (index flag : Z) (r1 : list slot) (i : nat) :
  weight ≠ NaN →
  r !! 0%nat = Some root →
  index ∉ indices r →
  descend (length r) weight (<[0%nat := Slot index weight flag]> r) 0
    = Some (r1, i) →
  row_inv r →
  row_inv (<[i := Slot index weight flag]> r1).
Proof.
  intros Hwn Hroot Hnew Hd (Hheap & Hnd & Hnn).
  assert (no_nan (<[0%nat := Slot index weight flag]> r)) as Hnn0
    by (by apply Forall_insert).
  split; [|split].
  - apply (descend_max_heap (length r) weight (Slot index weight flag)
             _ _ _ _ eq_refl Hwn Hd Hnn0).
    apply hole_inv_root; [by destruct r | done].
  - by apply (no_dup_index_push r root).
  - unfold no_nan.
    rewrite (descend_push_perm r root _ _ _ _ _ Hroot Hd).
    destruct r as [|s r]; [done|]. apply Forall_cons. split; [done|].
    by apply Forall_cons in Hnn as [_ ?].
Qed.


Lemma heap_push_row_inv (h : heap) (row : nat) (weight : float)
    (index flag : Z) (h' : heap) (count : Z) :
  weight ≠ NaN →
  heap_push h row weight index flag = Some (h', count) →
  Forall row_inv h → Forall row_inv h'.
Proof.
  intros Hwn Hpush Hall. apply heap_push_inv in Hpush
    as (r & root & Hr & Hroot & [(-> & _)|(r1 & i & _ & Hnew & Hd & -> & _)]);
    [done|].
  apply Forall_insert; [done|].
  apply (row_inv_push r root); try done.
  by eapply Forall_lookup_1.
Qed.


Lemma pushed_row_inv (h : heap) : pushed_no_nan h → Forall row_inv h.
Proof.
  induction 1
    as [n_points size|h row weight index flag h' count _ IH Hwn Hpush].
  - apply Forall_replicate, row_inv_make.
  - by eapply heap_push_row_inv.
Qed.

Lemma pushed_no_nan_pushed (h : heap) : pushed_no_nan h → pushed h.
Proof.
  induction 1
    as [n_points size|h row weight index flag h' count _ IH Hwn Hpush].
  - apply pushed_make.
  - by eapply pushed_push.
Qed.




(** [heap_push] raises only on a row that does not exist or has no slot. *)
Lemma heap_push_total (h : heap) (row : nat) (r : list slot)
    (weight : float) (index flag : Z) :
  h !! row = Some r → r ≠ [] →
  is_Some (heap_push h row weight index flag).
Proof.
  intros Hr Hne. destruct r as [|root r]; [done|].
  unfold heap_push. rewrite Hr. cbn -[index_present descend].
  destruct (wgt _ _); [done|].
  destruct (index_present _ _); [done|].
  destruct (descend_total (S (length r)) weight
              (Slot index weight flag :: r) 0) as [[r1 i] Hd];
    [simpl; lia | simpl; lia |].
  rewrite Hd. done.
Qed.

(** ** [deheap_sort] *)

Lemma swap_slots_length (r : list slot) (a b : nat) (r' : list slot) :
  swap_slots r a b = Some r' → length r' = length r.
Proof.
  unfold swap_slots. intros H.
  destruct (r !! a) as [sa|]; [|done]. destruct (r !! b) as [sb|]; [|done].
  injection H as <-. by rewrite !length_insert.
Qed.

Lemma swap_slots_perm (r : list slot) (a b : nat) (r' : list slot) :
  swap_slots r a b = Some r' → pairs r' ≡ₚ pairs r.
Proof.
  unfold swap_slots. intros H.
  destruct (r !! a) as [sa|] eqn:Ha; [|done].
  destruct (r !! b) as [sb|] eqn:Hb; [|done].
  injection H as <-. unfold pairs. rewrite !list_fmap_insert. simpl.
  apply insert_swap_perm; rewrite list_lookup_fmap.
  - by rewrite Ha.
  - by rewrite Hb.
Qed.

Lemma swap_slots_total (r : list slot) (a b : nat) :
  (a < length r)%nat → (b < length r)%nat → is_Some (swap_slots r a b).
Proof.
  intros [sa Ha]%lookup_lt_is_Some_2 [sb Hb]%lookup_lt_is_Some_2.
  unfold swap_slots. rewrite Ha, Hb. done.
Qed.

(** One iteration of the inner loop of [deheap_sort]: it leaves the loop
    with the row as it is, or exchanges [root] with a position after it and
    below [heap_end]. *)
Lemma sift_root_inv (fuel : nat) (heap_end : Z) (r : list slot) (root : nat)
    (r' : list slot) :
  sift_root fuel heap_end r root = Some r' →
  r' = r ∨ ∃ fuel' swap r1,
    fuel = S fuel' ∧ (root < swap)%nat ∧ Z.of_nat swap < heap_end ∧
    swap_slots r root swap = Some r1 ∧
    sift_root fuel' heap_end r1 swap = Some r'.
Proof.
  destruct fuel as [|fuel]; [done|]. cbn [sift_root]. intros H.
  destruct (Z.ltb_spec (Z.of_nat root * 2 + 1) heap_end) as [Hlt|Hlt];
    [|left; congruence].
  destruct (r !! root) as [ws|]; [|done]. cbn -[Nat.mul Nat.add] in H.
  destruct (r !! (root * 2 + 1)%nat) as [wl|]; [|done].
  cbn -[Nat.mul Nat.add] in H.
  set (swap1 := if wlt (slot_weight ws) (slot_weight wl)
                then (root * 2 + 1)%nat else root) in H.
  assert (swap1 = root ∨ swap1 = (root * 2 + 1)%nat) as Hswap1
    by (unfold swap1; destruct (wlt _ _); auto).
  clearbody swap1.
  destruct (r !! swap1) as [ws1|]; [|done]. cbn -[Nat.mul Nat.add] in H.
  assert (∃ swap,
            (swap = root ∨ ((root < swap)%nat ∧ Z.of_nat swap < heap_end)) ∧
            (if (swap =? root)%nat then Some r
             else swap_slots r root swap
                  ≫= λ r, sift_root fuel heap_end r swap) = Some r')
    as (swap & Hcases & H').
  { destruct (Z.ltb_spec (Z.of_nat (root * 2 + 1 + 1)) heap_end) as [Hr|Hr].
    - destruct (r !! (root * 2 + 1 + 1)%nat) as [wr|]; [|done].
      cbn -[Nat.mul Nat.add] in H. eexists. split; [|exact H].
      destruct (wlt _ _); [right; lia|]. destruct Hswap1; [by left|right; lia].
    - cbn -[Nat.mul Nat.add] in H. exists swap1. split; [|exact H].
      destruct Hswap1; [by left|right; lia]. }
  clear H. rename H' into H.
  destruct (Nat.eqb_spec swap root) as [->|Hne]; [left; congruence|].
  destruct Hcases as [?|[? ?]]; [done|].
  destruct (swap_slots r root swap) as [r1|] eqn:Hs; [|done].
  right. by exists fuel, swap, r1.
Qed.

Lemma sift_root_perm (fuel : nat) (heap_end : Z) (r : list slot) (root : nat)
    (r' : list slot) :
  sift_root fuel heap_end r root = Some r' →
  pairs r' ≡ₚ pairs r ∧ length r' = length r.
Proof.
  revert r root. induction fuel as [|fuel IH]; intros r root H; [done|].
  apply sift_root_inv in H
    as [->|(fuel' & swap & r1 & [= <-] & _ & _ & Hs & H)]; [done|].
  apply IH in H as [-> ->].
  split; [by eapply swap_slots_perm | by eapply swap_slots_length].
Qed.

Lemma unpack_row_perm (n : nat) (r r' : list slot) :
  unpack_row n r = Some r' → pairs r' ≡ₚ pairs r ∧ length r' = length r.
Proof.
  revert r. induction n as [|n IH]; intros r H.
  { by injection H as <-. }
  cbn [unpack_row] in H.
  destruct (swap_slots r 0 _) as [r1|] eqn:H1; [|done].
  cbn -[Z.of_nat] in H.
  destruct (sift_root _ _ r1 0) as [r2|] eqn:H2; [|done].
  cbn -[Z.of_nat] in H.
  apply IH in H as [-> ->]. apply sift_root_perm in H2 as [-> ->].
  split; [by eapply swap_slots_perm | by eapply swap_slots_length].
Qed.

(** [deheap_sort] returns, for each row, a permutation of the (index,
    weight) pairs that the row held. *)
Lemma deheap_sort_perm (h h' : heap) (ixs : list (list Z))
    (ws : list (list float)) :
  deheap_sort h = Some (h', (ixs, ws)) →
  ixs = indices <$> h' ∧ ws = weights <$> h' ∧
  Forall2 (λ r r', pairs r' ≡ₚ pairs r) h h'.
Proof.
  unfold deheap_sort. intros H.
  destruct (mapM _ h) as [h1|] eqn:Hm; [|done].
  injection H as <- <- <-. split; [done|]. split; [done|].
  apply mapM_Some_1 in Hm.
  eapply Forall2_impl; [exact Hm|].
  intros r r' Hr. by apply unpack_row_perm in Hr as [? _].
Qed.

(** The inner loop stays in the row and ends within [length r - root]
    iterations. *)
Lemma sift_root_total (fuel : nat) (heap_end : Z) (r : list slot)
    (root : nat) :
  (root < length r)%nat → heap_end ≤ Z.of_nat (length r) →
  (length r - root ≤ fuel)%nat →
  is_Some (sift_root fuel heap_end r root).
Proof.
  revert r root. induction fuel as [|fuel IH]; intros r root Hroot Hend Hfuel;
    [lia|].
  cbn [sift_root].
  destruct (Z.ltb_spec (Z.of_nat root * 2 + 1) heap_end) as [Hlt|Hlt]; [|done].
  destruct (lookup_lt_is_Some_2 r root Hroot) as [ws Hws].
  destruct (lookup_lt_is_Some_2 r (root * 2 + 1)) as [wl Hwl]; [lia|].
  rewrite Hws, Hwl. cbn -[Nat.mul Nat.add].
  set (swap1 := if wlt (slot_weight ws) (slot_weight wl)
                then (root * 2 + 1)%nat else root).
  assert (swap1 = root ∨ swap1 = (root * 2 + 1)%nat) as Hswap1
    by (unfold swap1; destruct (wlt _ _); auto).
  clearbody swap1.
  destruct (lookup_lt_is_Some_2 r swap1) as [ws1 Hws1]; [lia|].
  rewrite Hws1. cbn -[Nat.mul Nat.add].
  assert (∀ swap, (root ≤ swap)%nat → Z.of_nat swap < heap_end →
            is_Some (if (swap =? root)%nat then Some r
                     else swap_slots r root swap
                          ≫= λ r, sift_root fuel heap_end r swap)) as Hgo.
  { intros swap Hle Hsw. destruct (Nat.eqb_spec swap root); [done|].
    destruct (swap_slots_total r root swap) as [r1 Hr1]; [lia..|].
    rewrite Hr1. cbn. apply swap_slots_length in Hr1.
    apply IH; rewrite Hr1; lia. }
  destruct (Z.ltb_spec (Z.of_nat (root * 2 + 1 + 1)) heap_end) as [Hr|Hr].
  - destruct (lookup_lt_is_Some_2 r (root * 2 + 1 + 1)) as [wr Hwr]; [lia|].
    rewrite Hwr. cbn -[Nat.mul Nat.add].
    destruct (wlt (slot_weight ws1) _); apply Hgo; lia.
  - cbn -[Nat.mul Nat.add]. apply Hgo; lia.
Qed.

Lemma unpack_row_total (n : nat) (r : list slot) :
  (n ≤ length r)%nat → is_Some (unpack_row n r).
Proof.
  revert r. induction n as [|n IH]; intros r Hn; [done|].
  cbn [unpack_row].
  destruct (swap_slots_total r 0 (Z.to_nat (Z.of_nat (S n) - 1)))
    as [r1 Hr1]; [lia..|].
  rewrite Hr1. cbn -[Z.of_nat]. apply swap_slots_length in Hr1.
  destruct (sift_root_total (length r1) (Z.of_nat (S n) - 1 - 1) r1 0)
    as [r2 Hr2]; [lia..|].
  rewrite Hr2. cbn -[Z.of_nat]. apply sift_root_perm in Hr2 as [_ Hr2].
  apply IH. lia.
Qed.

(** [deheap_sort] returns on every heap. *)
Lemma deheap_sort_total (h : heap) : is_Some (deheap_sort h).
Proof.
  unfold deheap_sort.
  destruct (mapM_is_Some_2 (λ r, unpack_row (length r) r) h) as [h' Hh'].
  - apply Forall_forall. intros r _. by apply unpack_row_total.
  - rewrite Hh'. done.
Qed.

(** C1, at a failing input: the heap that [make_heap(1, 3)] and the pushes
    of the weights 5, 3 and 4 produce has the row of weights [5, 4, 3];
    [deheap_sort] returns for it the weights [4, 3, 5], which are not in
    ascending order.  The inner loop of [deheap_sort] compares with
    [heap_end] after its decrement, and leaves the last slot of the heap
    out. *)
Theorem deheap_sort_not_ascending :
  let h := [[Slot 1 (Fin 5) 1; Slot 3 (Fin 4) 1; Slot 2 (Fin 3) 1]] in
  (∃ h0 h1 h2,
     h0 = make_heap 1 3 ∧
     heap_push h0 0 (Fin 5) 1 1 = Some (h1, 1) ∧
     heap_push h1 0 (Fin 3) 2 1 = Some (h2, 1) ∧
     heap_push h2 0 (Fin 4) 3 1 = Some (h, 1)) ∧
  pushed h ∧
  deheap_sort h
  = Some ([[Slot 3 (Fin 4) 1; Slot 2 (Fin 3) 1; Slot 1 (Fin 5) 1]],
          ([[3; 2; 1]], [[Fin 4; Fin 3; Fin 5]])) ∧
  ¬ ascending [Fin 4; Fin 3; Fin 5].
Proof.
  cbv zeta.
  assert (∃ h0 h1 h2,
     h0 = make_heap 1 3 ∧
     heap_push h0 0 (Fin 5) 1 1 = Some (h1, 1) ∧
     heap_push h1 0 (Fin 3) 2 1 = Some (h2, 1) ∧
     heap_push h2 0 (Fin 4) 3 1
     = Some ([[Slot 1 (Fin 5) 1; Slot 3 (Fin 4) 1; Slot 2 (Fin 3) 1]], 1))
    as Hpushes.
  { eexists _, _, _. repeat split; reflexivity. }
  split; [exact Hpushes|]. split; [|split].
  - destruct Hpushes as (h0 & h1 & h2 & -> & H1 & H2 & H3).
    eapply pushed_push; [|exact H3].
    eapply pushed_push; [|exact H2].
    eapply pushed_push; [|exact H1].
    apply pushed_make.
  - reflexivity.
  - intros H. exact (H 0%nat 1%nat (Fin 4) (Fin 3) (le_n 1) eq_refl eq_refl).
Qed.

(** ** [smallest_flagged] *)

(** The scan from position [i] on: it keeps [min_dist] and [result_index]
    when no flagged slot is below [min_dist], and else ends on a flagged
    slot that no flagged slot is below. *)
Lemma flagged_scan_spec (r : list slot) (i : nat) (min_dist : float)
    (ri : Z) :
  ((∀ s, s ∈ r → slot_is_new s ≠ 0 → ¬ wlt (slot_weight s) min_dist) ∧
   flagged_scan r i min_dist ri = (min_dist, ri))
  ∨ (∃ k s,
       r !! k = Some s ∧ slot_is_new s ≠ 0 ∧ wlt (slot_weight s) min_dist ∧
       (∀ j s', r !! j = Some s' → slot_is_new s' ≠ 0 →
          ¬ wlt (slot_weight s') (slot_weight s)) ∧
       flagged_scan r i min_dist ri = (slot_weight s, Z.of_nat (i + k))).
Proof.
  revert i min_dist ri. induction r as [|s r IH]; intros i min_dist ri.
  { left. split; [|done]. intros s Hs. inversion Hs. }
  cbn [flagged_scan].
  destruct (negb (slot_is_new s =? 0) && wlt (slot_weight s) min_dist)
    eqn:Htest.
  - apply andb_true_iff in Htest as [Hflag Hlt].
    apply negb_true_iff, Z.eqb_neq in Hflag. apply Is_true_true in Hlt.
    right.
    destruct (IH (S i) (slot_weight s) (Z.of_nat i))
      as [[Hall ->]|(k & s2 & Hk & Hf2 & Hlt2 & Hmin & ->)].
    + exists 0%nat, s. repeat split; try done.
      * intros [|j] s' Hj Hf'; simpl in Hj.
        -- injection Hj as <-. apply wlt_irrefl.
        -- apply Hall; [by eapply list_elem_of_lookup_2 | done].
      * do 2 f_equal. lia.
    + exists (S k), s2. repeat split; try done.
      * by apply (wlt_trans _ (slot_weight s)).
      * intros [|j] s' Hj Hf'; simpl in Hj.
        -- injection Hj as <-. by apply wlt_asym.
        -- by apply (Hmin j).
      * do 2 f_equal. lia.
  - assert (slot_is_new s ≠ 0 → ¬ wlt (slot_weight s) min_dist) as Hs.
    { intros Hflag Hlt. apply andb_false_iff in Htest as [Hz|Hz].
      - apply negb_false_iff, Z.eqb_eq in Hz. done.
      - apply Is_true_true in Hlt. congruence. }
    destruct (IH (S i) min_dist ri)
      as [[Hall ->]|(k & s2 & Hk & Hf2 & Hlt2 & Hmin & ->)].
    + left. split; [|done].
      intros s' [->|Hin]%elem_of_cons Hf'; [by apply Hs | by apply Hall].
    + right. exists (S k), s2. repeat split; try done.
      * intros [|j] s' Hj Hf'; simpl in Hj.
        -- injection Hj as <-. intros Hlt. apply (Hs Hf').
           by apply (wlt_trans _ (slot_weight s2)).
        -- by apply (Hmin j).
      * do 2 f_equal. lia.
Qed.

(** The scan of [smallest_flagged] on a row: the slot it selects is
    flagged, below [+inf], and no flagged slot of the row has a weight
    below its weight. *)
Lemma result_index_spec (r : list slot) :
  ((∀ s, s ∈ r → ¬ selectable s) ∧ result_index r = -1)
  ∨ (∃ k s,
       r !! k = Some s ∧ selectable s ∧
       (∀ j s', r !! j = Some s' → slot_is_new s' ≠ 0 →
          ¬ wlt (slot_weight s') (slot_weight s)) ∧
       result_index r = Z.of_nat k).
Proof.
  unfold result_index.
  destruct (flagged_scan_spec r 0 PInf (-1))
    as [[Hall ->]|(k & s & Hk & Hf & Hlt & Hmin & ->)].
  - left. split; [|done]. intros s Hs [Hf Hlt]. by apply (Hall s).
  - right. by exists k, s.
Qed.

(** The selected slot is at most every flagged slot whose weight is not
    NaN. *)
Lemma selectable_least (s s' : slot) :
  selectable s → slot_weight s' ≠ NaN →
  ¬ wlt (slot_weight s') (slot_weight s) →
  wle (slot_weight s) (slot_weight s').
Proof.
  intros [_ Hlt] Hn Hnlt. apply wle_of_not_wlt; [done| |done].
  by apply wlt_not_nan in Hlt as [? _].
Qed.

(** A slot whose flag is 0 is not the one the scan selects. *)
Lemma result_index_cleared (r : list slot) (k : nat) (s : slot) :
  r !! k = Some s → slot_is_new s = 0 → result_index r ≠ Z.of_nat k.
Proof.
  intros Hk Hs Heq.
  destruct (result_index_spec r) as [[_ H]|(k' & s' & Hk' & [Hf _] & _ & H)].
  - lia.
  - assert (k' = k) as -> by lia. congruence.
Qed.

Lemma smallest_flagged_none (h : heap) (row : nat) (r : list slot) :
  h !! row = Some r → result_index r = -1 →
  smallest_flagged h row = Some (h, -1).
Proof. intros Hr Hri. unfold smallest_flagged. by rewrite Hr; cbn; rewrite Hri. Qed.

Lemma smallest_flagged_selected (h : heap) (row : nat) (r : list slot)
    (k : nat) (s : slot) :
  h !! row = Some r → r !! k = Some s → result_index r = Z.of_nat k →
  smallest_flagged h row
  = Some (<[row := <[k := clear_flag s]> r]> h, slot_index s).
Proof.
  intros Hr Hk Hri. unfold smallest_flagged. rewrite Hr; cbn. rewrite Hri.
  destruct (Z.leb_spec 0 (Z.of_nat k)); [|lia].
  rewrite Nat2Z.id, Hk. done.
Qed.

(** The calls of [smallest_flagged] leave a flag that is 0 as it is. *)
Lemma smallest_flagged_keeps_cleared (h : heap) (row : nat) (h' : heap)
    (v : Z) (r : list slot) (k : nat) (s : slot) :
  smallest_flagged h row = Some (h', v) →
  h !! row = Some r → r !! k = Some s → slot_is_new s = 0 →
  ∃ r' s', h' !! row = Some r' ∧ r' !! k = Some s' ∧ slot_is_new s' = 0.
Proof.
  intros Hcall Hr Hk Hs.
  destruct (result_index_spec r) as [[_ Hri]|(k' & s' & Hk' & _ & _ & Hri)].
  - rewrite (smallest_flagged_none h row r) in Hcall by done.
    injection Hcall as <- <-. by exists r, s.
  - rewrite (smallest_flagged_selected h row r k' s') in Hcall by done.
    injection Hcall as <- <-.
    exists (<[k' := clear_flag s']> r).
    rewrite list_lookup_insert_eq by (by eapply lookup_lt_Some).
    destruct (decide (k' = k)) as [->|Hne].
    + exists (clear_flag s'). split; [done|]. split; [|done].
      apply list_lookup_insert_eq. by eapply lookup_lt_Some.
    + exists s. by rewrite list_lookup_insert_ne.
Qed.

Lemma repeat_smallest_flagged_cleared (n : nat) (h : heap) (row : nat)
    (h' : heap) (r : list slot) (k : nat) (s : slot) :
  repeat_smallest_flagged n h row = Some h' →
  h !! row = Some r → r !! k = Some s → slot_is_new s = 0 →
  ∃ r' s', h' !! row = Some r' ∧ r' !! k = Some s' ∧ slot_is_new s' = 0.
Proof.
  revert h r s. induction n as [|n IH]; intros h r s Hrep Hr Hk Hs.
  { injection Hrep as <-. by exists r, s. }
  cbn [repeat_smallest_flagged] in Hrep.
  destruct (smallest_flagged h row) as [[h1 v]|] eqn:Hcall; [|done].
  cbn in Hrep.
  destruct (smallest_flagged_keeps_cleared h row h1 v r k s)
    as (r1 & s1 & Hr1 & Hk1 & Hs1); try done.
  by apply (IH h1 r1 s1).
Qed.

(** C4, as amended: [smallest_flagged] leaves the heap as it is, and
    then returns -1, if and only if no slot of the row is flagged with a
    weight below [+inf]; otherwise it selects a flagged slot below [+inf]
    that no flagged slot of the row is below in weight, returns the index
    stored there, sets the flag of that slot to 0, and no repeated call
    selects that slot again.  The value returned is -1 if and only if no
    slot is flagged with a weight below [+inf] or the selected slot
    stores the index -1. *)
Theorem smallest_flagged_spec (h : heap) (row : nat) (r : list slot) :
  h !! row = Some r →
  ∃ h' v,
    smallest_flagged h row = Some (h', v) ∧
    (h' = h ↔ ∀ s, s ∈ r → ¬ selectable s) ∧
    (v = -1 ↔
     (∀ s, s ∈ r → ¬ selectable s) ∨
     (∃ k s, r !! k = Some s ∧ result_index r = Z.of_nat k ∧
             slot_index s = -1)) ∧
    ((∃ s, s ∈ r ∧ selectable s) →
     ∃ k s,
       r !! k = Some s ∧ selectable s ∧
       (∀ j s', r !! j = Some s' → slot_is_new s' ≠ 0 →
          ¬ wlt (slot_weight s') (slot_weight s) ∧
          (slot_weight s' ≠ NaN → wle (slot_weight s) (slot_weight s'))) ∧
       result_index r = Z.of_nat k ∧
       h' = <[row := <[k := clear_flag s]> r]> h ∧
       v = slot_index s ∧
       ∀ n h2 r2,
         repeat_smallest_flagged n h' row = Some h2 → h2 !! row = Some r2 →
         result_index r2 ≠ Z.of_nat k).
Proof.
  intros Hr.
  destruct (result_index_spec r)
    as [[Hnone Hri]|(k & s & Hk & Hsel & Hmin & Hri)].
  - exists h, (-1). split; [by apply (smallest_flagged_none h row r)|].
    split; [done|]. split; [by split; [left|]|].
    intros (s & Hs & Hsel). by destruct (Hnone s Hs).
  - exists (<[row := <[k := clear_flag s]> r]> h), (slot_index s).
    assert (<[row := <[k := clear_flag s]> r]> h !! row
            = Some (<[k := clear_flag s]> r)) as Hr1
      by (apply list_lookup_insert_eq; by eapply lookup_lt_Some).
    assert (<[k := clear_flag s]> r !! k = Some (clear_flag s)) as Hk1
      by (apply list_lookup_insert_eq; by eapply lookup_lt_Some).
    assert (¬ ∀ s0, s0 ∈ r → ¬ selectable s0) as Hsome.
    { intros Hnone. destruct (Hnone s); [|done].
      by eapply list_elem_of_lookup_2. }
    split; [by apply (smallest_flagged_selected h row r k s)|].
    split; [|split].
    + split; [|done]. intros Hh. rewrite Hh, Hr in Hr1.
      injection Hr1 as Hr1. rewrite <- Hr1, Hk in Hk1.
      injection Hk1 as Hk1. destruct Hsel as [Hf _]. by rewrite Hk1 in Hf.
    + split.
      * intros Hv. right. by exists k, s.
      * intros [Hnone|(k' & s' & Hk' & Hri' & Hv)]; [done|].
        assert (k' = k) as -> by lia. congruence.
    + intros _. exists k, s. repeat split; try done; try apply Hsel.
      * by apply (Hmin j).
      * intros Hn. apply selectable_least; [done..|]. by apply (Hmin j).
      * intros n h2 r2 Hrep Hr2.
        destruct (repeat_smallest_flagged_cleared n _ row h2 _ k
                    (clear_flag s) Hrep Hr1 Hk1 eq_refl)
          as (r' & s' & Hr' & Hk' & Hs').
        rewrite Hr2 in Hr'. injection Hr' as <-.
        by apply (result_index_cleared r2 k s').
Qed.

Lemma smallest_flagged_spec_witness :
  ∃ h' v,
    smallest_flagged [[Slot (-1) (Fin 4) 1; Slot 3 (Fin 5) 0]] 0
    = Some (h', v) ∧
    (v = -1 ↔
     (∀ s, s ∈ [Slot (-1) (Fin 4) 1; Slot 3 (Fin 5) 0] → ¬ selectable s) ∨
     (∃ k s,
        [Slot (-1) (Fin 4) 1; Slot 3 (Fin 5) 0] !! k = Some s ∧
        result_index [Slot (-1) (Fin 4) 1; Slot 3 (Fin 5) 0] = Z.of_nat k ∧
        slot_index s = -1)).
Proof.
  destruct (smallest_flagged_spec
              [[Slot (-1) (Fin 4) 1; Slot 3 (Fin 5) 0]] 0
              [Slot (-1) (Fin 4) 1; Slot 3 (Fin 5) 0] eq_refl)
    as (h' & v & Hcall & _ & Hv & _).
  by exists h', v.
Defined.

(** C4, as the claim states it, fails, in two ways.  After [make_heap(1, 1)]
    and the push of the index 7 with the weight [+inf] and the flag 1, the
    only slot of the row is flagged, and [smallest_flagged] returns -1 and
    leaves the flag set: the test [dist[i] < min_dist] starts from
    [min_dist = +inf].  After [make_heap(1, 1)], the push of the index 3
    with the weight 5 and the push of the index -1 with the weight 4 and
    the flag 1, the only slot of the row is flagged with a weight below
    [+inf] and stores the index -1: [smallest_flagged] selects it, sets
    its flag to 0 and returns the -1 stored there. *)
Lemma smallest_flagged_skips_inf :
  ¬ (∀ (h : heap) (row : nat) (r : list slot),
       pushed h → h !! row = Some r →
       (smallest_flagged h row = Some (h, -1)
        ↔ ∀ s, s ∈ r → slot_is_new s = 0)) ∧
  (∃ h1 h2,
     heap_push (make_heap 1 1) 0 (Fin 5) 3 1 = Some (h1, 1) ∧
     heap_push h1 0 (Fin 4) (-1) 1 = Some (h2, 1) ∧
     h2 = [[Slot (-1) (Fin 4) 1]] ∧
     smallest_flagged h2 0 = Some ([[Slot (-1) (Fin 4) 0]], -1)) ∧
  ¬ (∀ (h : heap) (row : nat) (r : list slot) (h' : heap) (v : Z),
       pushed h → h !! row = Some r →
       smallest_flagged h row = Some (h', v) →
       (v = -1 ↔ ∀ s, s ∈ r → ¬ selectable s) ∧ (v = -1 → h' = h)).
Proof.
  split; [|split].
  - intros H.
    assert (pushed [[Slot 7 PInf 1]]) as Hp.
    { apply (pushed_push (make_heap 1 1) 0 PInf 7 1 _ 1); [|reflexivity].
      apply pushed_make. }
    destruct (H [[Slot 7 PInf 1]] 0%nat [Slot 7 PInf 1] Hp eq_refl)
      as [H1 _].
    specialize (H1 eq_refl (Slot 7 PInf 1) (list_elem_of_here _ _)).
    discriminate H1.
  - exists [[Slot 3 (Fin 5) 1]], [[Slot (-1) (Fin 4) 1]].
    repeat split; reflexivity.
  - intros H.
    assert (pushed [[Slot (-1) (Fin 4) 1]]) as Hp.
    { apply (pushed_push [[Slot 3 (Fin 5) 1]] 0 (Fin 4) (-1) 1 _ 1);
        [|reflexivity].
      apply (pushed_push (make_heap 1 1) 0 (Fin 5) 3 1 _ 1); [|reflexivity].
      apply pushed_make. }
    destruct (H [[Slot (-1) (Fin 4) 1]] 0%nat [Slot (-1) (Fin 4) 1]
                [[Slot (-1) (Fin 4) 0]] (-1) Hp eq_refl eq_refl)
      as [_ H2].
    discriminate (H2 eq_refl).
Qed.

(** ** Random generator *)

Lemma wrap_range (w z : Z) :
  0 < w → - 2 ^ (w - 1) ≤ wrap w z < 2 ^ (w - 1).
Proof.
  intros Hw. unfold wrap.
  assert (2 ^ w = 2 * 2 ^ (w - 1)) as Hpow.
  { rewrite <- Z.pow_succ_r by lia. f_equal. lia. }
  assert (0 < 2 ^ (w - 1)) by (apply Z.pow_pos_nonneg; lia).
  pose proof (Z.mod_pos_bound (z + 2 ^ (w - 1)) (2 ^ w)). lia.
Qed.

(** [tau_rand_int] on a state of three words or more. *)
Lemma tau_rand_int_cons (s0 s1 s2 : Z) (rest : list Z) :
  tau_rand_int (s0 :: s1 :: s2 :: rest)
  = Some (tau_word 4294967294 12 13 19 s0
          :: tau_word 4294967288 4 2 25 s1
          :: tau_word 4294967280 17 3 11 s2 :: rest,
          wrap32 (Z.lxor (Z.lxor (tau_word 4294967294 12 13 19 s0)
                                 (tau_word 4294967288 4 2 25 s1))
                         (tau_word 4294967280 17 3 11 s2))).
Proof. reflexivity. Qed.

Lemma tau_rand_int_length (state state' : RngState) (i : Z) :
  tau_rand_int state = Some (state', i) →
  (3 ≤ length state)%nat ∧ length state' = length state.
Proof.
  destruct state as [|s0 [|s1 [|s2 rest]]]; try done.
  rewrite tau_rand_int_cons. intros [= <- _]. simpl. lia.
Qed.

Lemma tau_rand_int_words (s1 s2 : RngState) :
  words s1 = words s2 →
  (λ '(s, i), (words s, i)) <$> tau_rand_int s1
  = (λ '(s, i), (words s, i)) <$> tau_rand_int s2.
Proof.
  unfold words.
  destruct s1 as [|a1 [|b1 [|c1 r1]]], s2 as [|a2 [|b2 [|c2 r2]]];
    try done.
  intros [= -> -> ->]. by rewrite !tau_rand_int_cons.
Qed.

Lemma run_call_words (c : call) (s1 s2 : RngState) :
  words s1 = words s2 →
  (λ '(s, o), (words s, o)) <$> run_call c s1
  = (λ '(s, o), (words s, o)) <$> run_call c s2.
Proof.
  intros H. apply tau_rand_int_words in H.
  destruct c; unfold run_call, tau_rand;
    destruct (tau_rand_int s1) as [[s1' i1]|],
             (tau_rand_int s2) as [[s2' i2]|]; try done;
    cbn in *; by injection H as -> ->.
Qed.

(** C8: [tau_rand_int] and [tau_rand] read and write the three words of
    the state they are given and nothing else: on two states that hold the
    same three words, the same calls return the same values and leave the
    same three words. *)
Theorem run_calls_deterministic (cs : list call) (s1 s2 : RngState) :
  words s1 = words s2 →
  (λ '(s, os), (words s, os)) <$> run_calls cs s1
  = (λ '(s, os), (words s, os)) <$> run_calls cs s2.
Proof.
  revert s1 s2. induction cs as [|c cs IH]; intros s1 s2 H.
  { cbn. by rewrite H. }
  cbn [run_calls]. pose proof (run_call_words c s1 s2 H) as Hc.
  destruct (run_call c s1) as [[s1' o1]|], (run_call c s2) as [[s2' o2]|];
    try done.
  cbn in Hc. injection Hc as Hw ->. cbn.
  specialize (IH s1' s2' Hw).
  destruct (run_calls cs s1') as [[s1'' os1]|],
           (run_calls cs s2') as [[s2'' os2]|]; try done.
  cbn in *. by injection IH as -> ->.
Qed.

Lemma run_calls_deterministic_witness :
  (λ '(s, os), (words s, os))
    <$> run_calls [CallTauRandInt; CallTauRand] [12345; 67890; 424242]
  = (λ '(s, os), (words s, os))
    <$> run_calls [CallTauRandInt; CallTauRand] [12345; 67890; 424242; 7].
Proof.
  apply (run_calls_deterministic [CallTauRandInt; CallTauRand]
           [12345; 67890; 424242] [12345; 67890; 424242; 7]).
  reflexivity.
Defined.

(** C9: [tau_rand] returns the quotient of the value of [tau_rand_int],
    an integer of the signed 32-bit range, by [0x7fffffff], and for some
    state the quotient is negative. *)
Theorem tau_rand_quotient :
  (∀ state,
     tau_rand state
     = (λ '(state', i), (state', (inject_Z i / inject_Z 0x7fffffff)%Q))
       <$> tau_rand_int state) ∧
  (∀ state,
     from_option (λ '(_, i), - 2 ^ 31 ≤ i < 2 ^ 31) True
       (tau_rand_int state)) ∧
  (∃ state state' x, tau_rand state = Some (state', x) ∧ (x < 0)%Q).
Proof.
  split; [|split].
  - intros state. unfold tau_rand.
    by destruct (tau_rand_int state) as [[state' i]|].
  - intros state. destruct state as [|s0 [|s1 [|s2 rest]]]; try done.
    rewrite tau_rand_int_cons. cbn [from_option].
    apply (wrap_range 32). lia.
  - exists [524288; 0; 0], [2147483649; 0; 0], (-2147483647 # 2147483647)%Q.
    split; reflexivity.
Qed.

(** ** [rejection_sample] *)

Lemma sample_taken_elem_of (j : Z) (result : list Z) :
  sample_taken j result = true ↔ j ∈ result.
Proof.
  induction result as [|x result IH]; simpl.
  - split; [done | intros H; inversion H].
  - rewrite elem_of_cons. destruct (Z.eqb_spec j x).
    + split; auto.
    + rewrite IH. split; [auto | intros [?|?]; done].
Qed.

(** There are no more samples than values in the pool. *)
Lemma samples_length (pool_size : Z) (result : list Z) :
  0 ≤ pool_size → samples pool_size result →
  Z.of_nat (length result) ≤ pool_size ∧
  (Z.of_nat (length result) = pool_size → result ≡ₚ seqZ 0 pool_size).
Proof.
  intros Hpool [Hnd Hrange].
  assert (result ⊆+ seqZ 0 pool_size) as Hsub.
  { apply NoDup_submseteq; [done|]. intros x Hx.
    apply elem_of_seqZ. specialize (Hrange x Hx). lia. }
  pose proof (submseteq_length _ _ Hsub) as Hlen.
  rewrite length_seqZ in Hlen. split; [lia|].
  intros Heq. apply submseteq_length_Permutation; [done|].
  rewrite length_seqZ. lia.
Qed.

(** The [while] loop returns a value of the pool that is not in [result],
    and raises only for a state of fewer than three words or an empty
    pool. *)
Lemma draw_sample_spec (fuel : nat) (pool_size : Z) (result : list Z)
    (rng_state : RngState) :
  match draw_sample fuel pool_size result rng_state with
  | Returns (rng_state', j) =>
      length rng_state' = length rng_state ∧ (j ∉ result) ∧
      (0 < pool_size → 0 ≤ j < pool_size)
  | Raises => (length rng_state < 3)%nat ∨ pool_size = 0
  | OutOfFuel => True
  end.
Proof.
  revert rng_state. induction fuel as [|fuel IH]; intros rng_state; [done|].
  cbn [draw_sample].
  destruct (tau_rand_int rng_state) as [[rng_state' x]|] eqn:Hx.
  - apply tau_rand_int_length in Hx as [Hlen Hlen'].
    destruct (Z.eqb_spec pool_size 0) as [->|Hpool]; [by right|].
    destruct (sample_taken (x mod pool_size) result) eqn:Htaken.
    + specialize (IH rng_state'). rewrite Hlen' in IH.
      by destruct (draw_sample fuel pool_size result rng_state')
        as [[? ?]| |].
    + split; [done|]. split.
      * intros Hin. apply sample_taken_elem_of in Hin. congruence.
      * intros Hpos. by apply Z.mod_pos_bound.
  - left. destruct (decide (length rng_state < 3)%nat) as [?|Hge]; [done|].
    destruct rng_state as [|s0 [|s1 [|s2 rest]]]; simpl in *; try lia.
    by rewrite tau_rand_int_cons in Hx.
Qed.

Lemma samples_snoc (pool_size : Z) (result : list Z) (j : Z) :
  samples pool_size result → j ∉ result → 0 ≤ j < pool_size →
  samples pool_size (result ++ [j]).
Proof.
  intros [Hnd Hrange] Hj Hjr. split.
  - apply NoDup_app. repeat split; [done| |apply NoDup_singleton].
    intros x Hx Hxj. apply list_elem_of_singleton in Hxj. congruence.
  - intros x [Hx| ->%list_elem_of_singleton]%elem_of_app; [by apply Hrange|done].
Qed.

(** The [for] loop keeps the accepted samples distinct and in the pool. *)
Lemma sample_loop_samples (fuel n : nat) (pool_size : Z) (result : list Z)
    (rng_state rng_state' : RngState) (result' : list Z) :
  0 < pool_size →
  sample_loop fuel n pool_size result rng_state
  = Returns (rng_state', result') →
  samples pool_size result →
  samples pool_size result' ∧ length result' = (length result + n)%nat.
Proof.
  intros Hpool. revert result rng_state.
  induction n as [|n IH]; intros result rng_state H Hres.
  { injection H as <- <-. split; [done|lia]. }
  cbn [sample_loop] in H.
  pose proof (draw_sample_spec fuel pool_size result rng_state) as Hd.
  destruct (draw_sample fuel pool_size result rng_state)
    as [[rng_state1 j]| |]; try done.
  destruct Hd as (_ & Hj & Hjr).
  apply IH in H as [H Hlen]; [|by apply samples_snoc; auto].
  split; [done|]. rewrite Hlen, length_app. simpl. lia.
Qed.

(** What a run returns does not depend on the bound, once the bound is
    large enough for it to return. *)
Lemma draw_sample_mono (fuel fuel' : nat) (pool_size : Z) (result : list Z)
    (rng_state : RngState) (v : RngState * Z) :
  (fuel ≤ fuel')%nat →
  draw_sample fuel pool_size result rng_state = Returns v →
  draw_sample fuel' pool_size result rng_state = Returns v.
Proof.
  revert fuel' rng_state.
  induction fuel as [|fuel IH]; intros fuel' rng_state Hle H; [done|].
  destruct fuel' as [|fuel']; [lia|]. cbn [draw_sample] in H |- *.
  destruct (tau_rand_int rng_state) as [[rng_state' x]|]; [|done].
  destruct (pool_size =? 0); [done|].
  destruct (sample_taken (x mod pool_size) result); [|done].
  apply IH; [lia | done].
Qed.

Lemma rejection_sample_mono (fuel fuel' n_samples : nat) (pool_size : Z)
    (rng_state : RngState) (v : RngState * list Z) :
  (fuel ≤ fuel')%nat →
  rejection_sample fuel n_samples pool_size rng_state = Returns v →
  rejection_sample fuel' n_samples pool_size rng_state = Returns v.
Proof.
  unfold rejection_sample. intros Hle. generalize (@nil Z) as result.
  revert rng_state. induction n_samples as [|n IH]; intros rng_state result H;
    [done|].
  cbn [sample_loop] in H |- *.
  destruct (draw_sample fuel pool_size result rng_state)
    as [[rng_state1 j]| |] eqn:Hd; try done.
  rewrite (draw_sample_mono fuel fuel' _ _ _ _ Hle Hd). by apply IH.
Qed.

(** C6: when [rejection_sample(n_samples, pool_size, rng_state)] returns,
    for [0 <= n_samples <= pool_size], it returns [n_samples] pairwise
    distinct integers of [[0, pool_size)], and for [n_samples = pool_size]
    a permutation of [[0, pool_size)]. *)
Theorem rejection_sample_distinct (fuel n_samples : nat) (pool_size : Z)
    (rng_state rng_state' : RngState) (result : list Z) :
  Z.of_nat n_samples ≤ pool_size →
  rejection_sample fuel n_samples pool_size rng_state
  = Returns (rng_state', result) →
  length result = n_samples ∧
  NoDup result ∧
  (∀ x, x ∈ result → 0 ≤ x < pool_size) ∧
  (Z.of_nat n_samples = pool_size → result ≡ₚ seqZ 0 pool_size).
Proof.
  intros Hn H. unfold rejection_sample in H.
  assert (samples pool_size result ∧ length result = n_samples)
    as [Hres Hlen].
  { destruct n_samples as [|n].
    - injection H as <- <-. split; [|done]. split; [constructor|].
      intros x Hx. inversion Hx.
    - apply sample_loop_samples in H as [? ?]; [done|lia|].
      split; [constructor|]. intros x Hx. inversion Hx. }
  split; [done|]. split; [apply Hres|]. split; [apply Hres|].
  intros Heq. apply samples_length; [lia|done|lia].
Qed.

Lemma rejection_sample_distinct_witness :
  length [2; 0; 1] = 3%nat ∧
  NoDup [2; 0; 1] ∧
  (∀ x, x ∈ [2; 0; 1] → 0 ≤ x < 3) ∧
  (Z.of_nat 3 = 3 → [2; 0; 1] ≡ₚ seqZ 0 3).
Proof.
  apply (rejection_sample_distinct 50 3 3 [12345; 67890; 424242]
           [3236312888; 278069250; 1477231017] [2; 0; 1]).
  - simpl. lia.
  - vm_compute. reflexivity.
Defined.

(** The [for] loop cannot return more samples than the pool holds. *)
Lemma sample_loop_diverges (fuel n : nat) (pool_size : Z) (result : list Z)
    (rng_state : RngState) :
  0 < pool_size → (3 ≤ length rng_state)%nat →
  samples pool_size result →
  pool_size < Z.of_nat (length result + n) →
  sample_loop fuel n pool_size result rng_state = OutOfFuel.
Proof.
  intros Hpool. revert result rng_state.
  induction n as [|n IH]; intros result rng_state Hst Hres Hlen.
  { apply samples_length in Hres as [Hle _]; lia. }
  cbn [sample_loop].
  pose proof (draw_sample_spec fuel pool_size result rng_state) as Hd.
  destruct (draw_sample fuel pool_size result rng_state)
    as [[rng_state1 j]| |]; [|lia|done].
  destruct Hd as (Hst1 & Hj & Hjr).
  apply IH.
  - lia.
  - apply samples_snoc; auto.
  - rewrite length_app. simpl. lia.
Qed.

(** Once the pool is exhausted, the [while] loop accepts no value. *)
Lemma draw_sample_exhausted (fuel : nat) (pool_size : Z) (result : list Z)
    (rng_state : RngState) :
  0 < pool_size → (3 ≤ length rng_state)%nat →
  samples pool_size result → Z.of_nat (length result) = pool_size →
  draw_sample fuel pool_size result rng_state = OutOfFuel.
Proof.
  intros Hpool Hst Hres Hlen.
  pose proof (draw_sample_spec fuel pool_size result rng_state) as Hd.
  destruct (draw_sample fuel pool_size result rng_state)
    as [[rng_state1 j]| |]; [|lia|done].
  destruct Hd as (_ & Hj & Hjr). destruct Hj.
  apply samples_length in Hres as [_ Hperm]; [|lia].
  rewrite (Hperm Hlen). apply elem_of_seqZ. lia.
Qed.

(** C7: for [n_samples > pool_size > 0], the call of [rejection_sample]
    does not return: whatever the bound on the iterations of its [while]
    loop, the run goes beyond it. *)
Theorem rejection_sample_diverges (fuel n_samples : nat) (pool_size : Z)
    (rng_state : RngState) :
  0 < pool_size < Z.of_nat n_samples →
  (3 ≤ length rng_state)%nat →
  rejection_sample fuel n_samples pool_size rng_state = OutOfFuel.
Proof.
  intros [Hpool Hn] Hst. apply sample_loop_diverges; try done.
  split; [constructor|]. intros x Hx. inversion Hx.
Qed.

Lemma rejection_sample_diverges_witness :
  rejection_sample 50 4 3 [12345; 67890; 424242] = OutOfFuel.
Proof.
  apply (rejection_sample_diverges 50 4 3 [12345; 67890; 424242]).
  - lia.
  - simpl. lia.
Defined.

(** ** [build_candidates] *)

Lemma run_all_app {A S : Type} (f : A → S → option S) (l1 l2 : list A)
    (s : S) :
  run_all f (l1 ++ l2) s = run_all f l1 s ≫= run_all f l2.
Proof.
  revert s. induction l1 as [|a l1 IH]; intros s; [done|].
  cbn [run_all app]. destruct (f a s) as [s'|]; [apply IH | done].
Qed.

Lemma for_range_run_all {S : Type} (body : nat → S → option S)
    (start n : nat) (s : S) :
  for_range body start n s = run_all body (seq start n) s.
Proof.
  revert start s. induction n as [|n IH]; intros start s; [done|].
  cbn [for_range seq run_all]. destruct (body start s); [apply IH | done].
Qed.

(** The two nested loops visit the slots row by row. *)
Lemma for_range_nested {S : Type} (body : nat → nat → S → option S)
    (n m : nat) (s : S) :
  for_range (λ i, for_range (λ j, body i j) 0 m) 0 n s
  = run_all (λ p, body p.1 p.2) (slots n m) s.
Proof.
  rewrite for_range_run_all. unfold slots.
  assert (∀ i l s, run_all (λ p : nat * nat, body p.1 p.2)
                     ((λ j, (i, j)) <$> l) s
                   = run_all (λ j, body i j) l s) as Hrow.
  { intros i l. induction l as [|a l IHl]; intros s0; [done|].
    cbn. destruct (body i a s0); [apply IHl | done]. }
  assert (∀ start s,
            run_all (λ i, for_range (λ j, body i j) 0 m) (seq start n) s
            = run_all (λ p : nat * nat, body p.1 p.2)
                (seq start n ≫= λ i, (λ j, (i, j)) <$> seq 0 m) s) as Hgen;
    [|apply Hgen].
  clear s. induction n as [|n IH]; intros start s; [done|].
  cbn [seq run_all mbind list_bind]. rewrite run_all_app.
  rewrite for_range_run_all, Hrow.
  destruct (run_all _ (seq 0 m) s) as [s'|]; [apply IH | done].
Qed.

Lemma elem_of_slots (n m i j : nat) :
  (i, j) ∈ slots n m ↔ (i < n)%nat ∧ (j < m)%nat.
Proof.
  unfold slots. rewrite list_elem_of_bind. split.
  - intros (i' & Hj & Hi). apply list_elem_of_fmap in Hj as (j' & [= -> ->] & Hj).
    apply elem_of_seq in Hi, Hj. lia.
  - intros [Hi Hj]. exists i. split.
    + apply list_elem_of_fmap. exists j. split; [done|]. apply elem_of_seq. lia.
    + apply elem_of_seq. lia.
Qed.

Lemma NoDup_slots (n m : nat) : NoDup (slots n m).
Proof.
  unfold slots. apply NoDup_bind.
  - intros i1 i2 p _ _ Hp1 Hp2.
    apply list_elem_of_fmap in Hp1 as (j1 & -> & _).
    apply list_elem_of_fmap in Hp2 as (j2 & [= -> _] & _). done.
  - intros i _. apply NoDup_fmap_2; [|apply NoDup_seq].
    intros j1 j2 [= ->]. done.
  - apply NoDup_seq.
Qed.

Lemma slot_at_insert_eq (g : heap) (i j : nat) (r : list slot) (e x : slot) :
  g !! i = Some r → r !! j = Some e →
  slot_at (<[i := <[j := x]> r]> g) i j = Some x.
Proof.
  intros Hi Hj. unfold slot_at.
  rewrite list_lookup_insert_eq by (by eapply lookup_lt_Some). cbn.
  apply list_lookup_insert_eq. by eapply lookup_lt_Some.
Qed.

Lemma slot_at_insert_ne (g : heap) (i j i' j' : nat) (r : list slot)
    (x : slot) :
  g !! i = Some r → (i', j') ≠ (i, j) →
  slot_at (<[i := <[j := x]> r]> g) i' j' = slot_at g i' j'.
Proof.
  intros Hi Hne. unfold slot_at.
  destruct (decide (i' = i)) as [->|Hi'].
  - rewrite list_lookup_insert_eq by (by eapply lookup_lt_Some).
    rewrite Hi. cbn. apply list_lookup_insert_ne. congruence.
  - by rewrite list_lookup_insert_ne.
Qed.

(** The body of the loops at a slot: it raises, or does what the slot asks
    for, an edge or none, and clears the flag of an edge. *)
Lemma candidate_slot_inv (i j : nat) (g cand : heap) (st : RngState)
    (g1 cand1 : heap) (st1 : RngState) :
  candidate_slot i j (g, cand, st) = Some (g1, cand1, st1) →
  ∃ r e, g !! i = Some r ∧ r !! j = Some e ∧
    run_all push_edge (edge_at g (i, j)) (cand, st) = Some (cand1, st1) ∧
    g1 = if slot_index e <? 0 then g else <[i := <[j := clear_flag e]> r]> g.
Proof.
  unfold candidate_slot, edge_at, slot_at. cbn [fst snd]. intros H.
  destruct (g !! i) as [r|] eqn:Hr; [|done]. cbn in H |- *.
  destruct (r !! j) as [e|] eqn:He; [|done]. cbn in H |- *.
  exists r, e. split; [done|]. split; [done|].
  destruct (slot_index e <? 0).
  { by injection H as <- <- <-. }
  cbn [run_all push_edge edge_i edge_nb edge_flag].
  destruct (tau_rand st) as [[st' d]|]; [|done]. cbn in H |- *.
  destruct (heap_push cand i _ _ _) as [[cand' c1]|]; [|done]. cbn in H |- *.
  destruct (heap_push cand' _ _ _ _) as [[cand'' c2]|]; [|done].
  cbn in H |- *. by injection H as <- <- <-.
Qed.

Lemma list_bind_ext_in {A B : Type} (f g : A → list B) (l : list A) :
  (∀ x, x ∈ l → f x = g x) → l ≫= f = l ≫= g.
Proof.
  induction l as [|a l IH]; intros H; [done|]. cbn.
  rewrite (H a) by apply list_elem_of_here. f_equal.
  apply IH. intros x Hx. apply H. by apply list_elem_of_further.
Qed.

(** The loops over distinct slots [ps] of the graph [g]: the pushes are
    those of the edges that [g] holds at [ps], the slots at [ps] that hold
    an edge have their flag cleared, and the other slots are as they
    were. *)
Lemma run_candidate_slots (ps : list (nat * nat)) (g cand : heap)
    (st : RngState) (g' cand' : heap) (st' : RngState) :
  NoDup ps →
  run_all (λ p, candidate_slot p.1 p.2) ps (g, cand, st)
  = Some (g', cand', st') →
  run_all push_edge (ps ≫= edge_at g) (cand, st) = Some (cand', st') ∧
  (∀ p, p ∈ ps → ∃ e, slot_at g p.1 p.2 = Some e ∧
     slot_at g' p.1 p.2
     = Some (if slot_index e <? 0 then e else clear_flag e)) ∧
  (∀ p, p ∉ ps → slot_at g' p.1 p.2 = slot_at g p.1 p.2).
Proof.
  revert g cand st. induction ps as [|[i j] ps IH]; intros g cand st Hnd H.
  { injection H as <- <- <-. split; [done|]. split; [|done].
    intros p Hp. inversion Hp. }
  apply NoDup_cons in Hnd as [Hnotin Hnd]. cbn [run_all fst snd] in H.
  destruct (candidate_slot i j (g, cand, st)) as [[[g1 cand1] st1]|] eqn:Hc;
    [|done].
  cbn in H. apply IH in H as (Hpush & Hin & Hout); [|done].
  apply candidate_slot_inv in Hc as (r & e & Hr & He & Hedge & Hg1).
  assert (slot_at g i j = Some e) as Hat by (unfold slot_at; by rewrite Hr).
  assert (∀ i' j', (i', j') ≠ (i, j) → slot_at g1 i' j' = slot_at g i' j')
    as Hsame.
  { intros i' j' Hne. rewrite Hg1. destruct (slot_index e <? 0); [done|].
    by apply slot_at_insert_ne. }
  assert (slot_at g1 i j
          = Some (if slot_index e <? 0 then e else clear_flag e)) as Hat1.
  { rewrite Hg1. destruct (slot_index e <? 0); [done|].
    by apply (slot_at_insert_eq g i j r e). }
  split; [|split].
  - cbn [mbind list_bind]. rewrite run_all_app, Hedge. cbn.
    rewrite <- Hpush. f_equal. apply list_bind_ext_in.
    intros [i' j'] Hp. unfold edge_at. cbn [fst snd].
    rewrite Hsame; [done|]. intros [= -> ->]. done.
  - intros [i' j'] [[= -> ->]|Hp]%elem_of_cons; cbn [fst snd].
    + exists e. split; [done|].
      pose proof (Hout (i, j) Hnotin) as Ho. cbn [fst snd] in Ho.
      by rewrite Ho.
    + destruct (Hin _ Hp) as (e' & He' & He''). cbn [fst snd] in *.
      exists e'. split; [|done]. rewrite <- He'. symmetry. apply Hsame.
      intros [= -> ->]. done.
  - intros [i' j'] [Hne Hp]%not_elem_of_cons. cbn [fst snd].
    pose proof (Hout (i', j') Hp) as Ho. cbn [fst snd] in Ho.
    rewrite Ho. by apply Hsame.
Qed.



(** *** [build_candidates] returns on a well-formed graph *)

Lemma heap_push_shape (h : heap) (row : nat) (weight : float)
    (index flag : Z) (h' : heap) (count : Z) :
  heap_push h row weight index flag = Some (h', count) → shape h' = shape h.
Proof.
  intros H. apply heap_push_inv in H
    as (r & root & Hr & Hroot & [(-> & _)|(r1 & i & _ & _ & Hd & -> & _)]);
    [done|].
  unfold shape. rewrite list_fmap_insert, length_insert.
  apply descend_length in Hd. rewrite Hd, length_insert.
  apply list_insert_id. by rewrite list_lookup_fmap, Hr.
Qed.

Lemma shape_lookup (h : heap) (n m row : nat) :
  shape h = replicate n m → (row < n)%nat → (0 < m)%nat →
  ∃ r, h !! row = Some r ∧ r ≠ [].
Proof.
  intros Hshape Hrow Hm.
  assert (shape h !! row = Some m) as Hl
    by (rewrite Hshape; by apply lookup_replicate_2).
  unfold shape in Hl. rewrite list_lookup_fmap in Hl.
  destruct (h !! row) as [r|]; [|done]. injection Hl as Hl.
  exists r. split; [done|]. intros ->. simpl in Hl. lia.
Qed.

Lemma push_edge_total (e : edge) (cand : heap) (st : RngState) (n m : nat) :
  shape cand = replicate n m → (0 < m)%nat →
  (edge_i e < n)%nat → 0 ≤ edge_nb e < Z.of_nat n →
  (3 ≤ length st)%nat →
  ∃ cand' st', push_edge e (cand, st) = Some (cand', st') ∧
    shape cand' = replicate n m ∧ (3 ≤ length st')%nat.
Proof.
  intros Hshape Hm Hi Hnb Hst. unfold push_edge, tau_rand.
  destruct st as [|s0 [|s1 [|s2 rest]]]; simpl in Hst; try lia.
  rewrite tau_rand_int_cons. cbn [mbind option_bind].
  set (d := Fin _).
  destruct (shape_lookup cand n m (edge_i e)) as (r1 & Hr1 & Hne1);
    try done.
  destruct (heap_push_total cand (edge_i e) r1 d (edge_nb e) (edge_flag e))
    as [[cand1 c1] H1]; try done.
  rewrite H1. cbn [mbind option_bind].
  apply heap_push_shape in H1 as Hs1. rewrite Hshape in Hs1.
  destruct (shape_lookup cand1 n m (Z.to_nat (edge_nb e)))
    as (r2 & Hr2 & Hne2); try done; [lia|].
  destruct (heap_push_total cand1 (Z.to_nat (edge_nb e)) r2 d
              (Z.of_nat (edge_i e)) (edge_flag e))
    as [[cand2 c2] H2]; try done.
  rewrite H2. cbn [mbind option_bind].
  apply heap_push_shape in H2 as Hs2. rewrite Hs1 in Hs2.
  eexists _, _. split; [done|]. split; [done|]. simpl. lia.
Qed.

Lemma candidate_slot_eq (i j : nat) (g cand : heap) (st : RngState)
    (r : list slot) (e : slot) :
  g !! i = Some r → r !! j = Some e →
  candidate_slot i j (g, cand, st)
  = if slot_index e <? 0 then Some (g, cand, st)
    else '(cand', st') ←
           push_edge (Edge i (slot_index e) (slot_is_new e)) (cand, st);
         Some (<[i := <[j := clear_flag e]> r]> g, cand', st').
Proof.
  intros Hr He. unfold candidate_slot, push_edge. rewrite Hr. cbn.
  rewrite He. cbn. destruct (slot_index e <? 0); [done|].
  destruct (tau_rand st) as [[st' d]|]; [|done]. cbn.
  destruct (heap_push cand i _ _ _) as [[cand' c1]|]; [|done]. cbn.
  by destruct (heap_push cand' _ _ _ _) as [[cand'' c2]|].
Qed.

Lemma run_candidate_slots_total (ps : list (nat * nat)) (g cand : heap)
    (st : RngState) (n m : nat) :
  NoDup ps →
  (∀ p, p ∈ ps → ∃ e, slot_at g p.1 p.2 = Some e ∧
     (0 ≤ slot_index e → (p.1 < n)%nat ∧ slot_index e < Z.of_nat n)) →
  shape cand = replicate n m → (0 < m)%nat → (3 ≤ length st)%nat →
  is_Some (run_all (λ p, candidate_slot p.1 p.2) ps (g, cand, st)).
Proof.
  revert g cand st.
  induction ps as [|[i j] ps IH]; intros g cand st Hnd Hps Hs Hm Hst; [done|].
  apply NoDup_cons in Hnd as [Hnotin Hnd]. cbn [run_all fst snd].
  destruct (Hps (i, j)) as (e & He & Hrange); [apply list_elem_of_here|].
  unfold slot_at in He. cbn [fst snd] in He, Hrange.
  destruct (g !! i) as [r|] eqn:Hr; [|done]. cbn in He.
  rewrite (candidate_slot_eq i j g cand st r e) by done.
  assert (∀ g1, (∀ i' j', (i', j') ≠ (i, j) →
                   slot_at g1 i' j' = slot_at g i' j') →
            ∀ p, p ∈ ps → ∃ e, slot_at g1 p.1 p.2 = Some e ∧
              (0 ≤ slot_index e →
               (p.1 < n)%nat ∧ slot_index e < Z.of_nat n)) as Hps1.
  { intros g1 Hsame [i' j'] Hp. cbn [fst snd]. rewrite Hsame.
    - apply (Hps (i', j')). by apply list_elem_of_further.
    - intros [= -> ->]. done. }
  destruct (Z.ltb_spec (slot_index e) 0) as [Hneg|Hpos].
  { cbn. apply IH; try done. by apply Hps1. }
  destruct (push_edge_total (Edge i (slot_index e) (slot_is_new e))
              cand st n m) as (cand' & st' & -> & Hs' & Hst');
    try done; try (cbn; lia).
  cbn. apply IH; try done. apply Hps1.
  intros i' j' Hne. by apply slot_at_insert_ne.
Qed.

(** [build_candidates] returns when the graph has the slots [(i, j)] for
    [i < n_vertices] and [j < n_neighbors], their indices are below
    [n_vertices], the candidate heap has room and the random state has its
    three words. *)
Lemma build_candidates_total (current_graph : heap)
    (n_vertices n_neighbors max_candidates : nat) (rng_state : RngState) :
  (∀ i j, (i < n_vertices)%nat → (j < n_neighbors)%nat →
     ∃ e, slot_at current_graph i j = Some e ∧
          slot_index e < Z.of_nat n_vertices) →
  (0 < max_candidates)%nat → (3 ≤ length rng_state)%nat →
  is_Some (build_candidates current_graph n_vertices n_neighbors
             max_candidates rng_state).
Proof.
  intros Hg Hm Hst. unfold build_candidates. rewrite for_range_nested.
  apply (run_candidate_slots_total _ _ _ _ n_vertices max_candidates);
    try done.
  - apply NoDup_slots.
  - intros [i j] [Hi Hj]%elem_of_slots. cbn [fst snd].
    destruct (Hg i j Hi Hj) as (e & He & Hlt). exists e. by split.
  - unfold shape, make_heap. rewrite fmap_replicate.
    by rewrite length_replicate.
Qed.

(** * Further properties *)

(** ** [deheap_sort] on any heap *)

(** X1: [deheap_sort] returns on every heap, with no access out of range:
    the arrays it returns are the indices and the weights of the heap as
    it leaves it, and each row of them holds the (index, weight) pairs of
    the row as it was, in some order. *)
Theorem deheap_sort_permutes (h : heap) :
  ∃ h' ixs ws,
    deheap_sort h = Some (h', (ixs, ws)) ∧
    ixs = indices <$> h' ∧ ws = weights <$> h' ∧
    Forall2 (λ r r', pairs r' ≡ₚ pairs r) h h'.
Proof.
  destruct (deheap_sort_total h) as [[h' [ixs ws]] H].
  exists h', ixs, ws. split; [done|]. by apply deheap_sort_perm.
Qed.





(** In a max-heap the root holds a greatest weight. *)
Lemma max_heap_root (r : list slot) (root : slot) :
  max_heap r → r !! 0%nat = Some root → slot_weight root ≠ NaN →
  ∀ i s, r !! i = Some s → wle (slot_weight s) (slot_weight root).
Proof.
  intros Hheap Hroot Hn i. induction (lt_wf i) as [i _ IH]. intros s Hs.
  destruct i as [|i].
  { assert (s = root) as -> by congruence. by apply wle_refl. }
  assert (child (i / 2) (S i)) as Hchild.
  { unfold child. pose proof (Nat.div_mod_eq i 2) as Hdiv.
    pose proof (Nat.mod_upper_bound i 2). lia. }
  assert (i / 2 < S i)%nat as Hlt
    by (pose proof (Nat.div_mod_eq i 2); lia).
  destruct (lookup_lt_is_Some_2 r (i / 2)) as [sp Hsp].
  { apply lookup_lt_Some in Hs. lia. }
  apply (wle_trans _ (slot_weight sp)).
  - by apply (Hheap (i / 2)%nat (S i) Hchild sp s).
  - by apply (IH (i / 2)%nat).
Qed.

Lemma swap_slots_lookup_ne (r : list slot) (a b : nat) (r' : list slot)
    (k : nat) :
  swap_slots r a b = Some r' → k ≠ a → k ≠ b → r' !! k = r !! k.
Proof.
  unfold swap_slots. intros H Ha Hb.
  destruct (r !! a) as [sa|]; [|done]. destruct (r !! b) as [sb|]; [|done].
  injection H as <-. by rewrite !list_lookup_insert_ne.
Qed.

(** The inner loop of [deheap_sort] writes below [heap_end] only. *)
Lemma sift_root_above (fuel : nat) (heap_end : Z) (r : list slot)
    (root : nat) (r' : list slot) (k : nat) :
  sift_root fuel heap_end r root = Some r' →
  heap_end ≤ Z.of_nat k → r' !! k = r !! k.
Proof.
  intros H Hk. revert r root H.
  induction fuel as [|fuel IH]; intros r root H; [done|].
  apply sift_root_inv in H
    as [->|(fuel' & swap & r1 & [= <-] & Hlt & Hsw & Hs & H)]; [done|].
  rewrite (IH _ _ H). apply (swap_slots_lookup_ne r root swap); [done|lia..].
Qed.

(** The loop [while heap_end >= 0], entered with [heap_end = n - 1], writes
    below [n] only. *)
Lemma unpack_row_above (n : nat) (r r' : list slot) (k : nat) :
  unpack_row n r = Some r' → (n ≤ k)%nat → r' !! k = r !! k.
Proof.
  revert r. induction n as [|n IH]; intros r H Hk.
  { by injection H as <-. }
  cbn [unpack_row] in H.
  destruct (swap_slots r 0 _) as [r1|] eqn:H1; [|done].
  cbn -[Z.of_nat] in H.
  destruct (sift_root _ _ r1 0) as [r2|] eqn:H2; [|done].
  cbn -[Z.of_nat] in H.
  rewrite (IH _ H) by lia.
  rewrite (sift_root_above _ _ _ _ _ k H2) by lia.
  apply (swap_slots_lookup_ne r 0 _ r1 k H1); lia.
Qed.

(** The first exchange of [deheap_sort] on a row puts the pair of the root
    in the last slot, and nothing moves it from there. *)
Lemma unpack_row_last (r r' : list slot) (root : slot) :
  unpack_row (length r) r = Some r' → r !! 0%nat = Some root →
  last (pairs r') = Some (slot_index root, slot_weight root).
Proof.
  intros H Hroot.
  destruct (unpack_row_perm _ _ _ H) as [_ Hlen].
  destruct (length r) as [|n] eqn:Hn.
  { apply lookup_lt_Some in Hroot. lia. }
  cbn [unpack_row] in H.
  destruct (swap_slots r 0 _) as [r1|] eqn:H1; [|done].
  cbn -[Z.of_nat] in H.
  destruct (sift_root _ _ r1 0) as [r2|] eqn:H2; [|done].
  cbn -[Z.of_nat] in H.
  replace (Z.to_nat (Z.of_nat (S n) - 1)) with n in H1 by lia.
  rewrite last_lookup. unfold pairs at 1. rewrite length_fmap, Hlen.
  cbn [pred]. unfold pairs. rewrite list_lookup_fmap.
  rewrite (unpack_row_above n r2 r' n H) by lia.
  rewrite (sift_root_above _ _ _ _ _ n H2) by lia.
  unfold swap_slots in H1. rewrite Hroot in H1. cbn in H1.
  destruct (r !! n) as [sn|] eqn:Hsn; [|done]. injection H1 as <-.
  rewrite list_lookup_insert_eq; [done|].
  rewrite length_insert. lia.
Qed.

(** X3: what [deheap_sort] gets right on a row: the last entry that it
    returns for the row is the pair that the root held, and, when the row
    is a max-heap, no weight that it returns for the row is above that
    one; every such weight is [<=] it unless the root holds NaN, which a
    max-heap allows in a row of one slot only. *)
Theorem deheap_sort_last_is_root (h : heap) (i : nat) (r : list slot)
    (root : slot) :
  h !! i = Some r → r !! 0%nat = Some root →
  ∃ h' out r',
    deheap_sort h = Some (h', out) ∧ h' !! i = Some r' ∧
    last (pairs r') = Some (slot_index root, slot_weight root) ∧
    (max_heap r → ∀ p, p ∈ pairs r' →
       ¬ wlt (slot_weight root) p.2 ∧
       (slot_weight root ≠ NaN → wle p.2 (slot_weight root))).
Proof.
  intros Hr Hroot.
  destruct (deheap_sort_total h) as [[h' out] H].
  pose proof H as Hcall. unfold deheap_sort in H.
  destruct (mapM _ h) as [h1|] eqn:Hm; [|done].
  injection H as -> _. apply mapM_Some_1 in Hm.
  destruct (Forall2_lookup_l _ _ _ _ _ Hm Hr) as (r' & Hr' & Hun).
  exists h', out, r'. split; [done|]. split; [done|]. split.
  - by apply (unpack_row_last r r' root).
  - intros Hheap p Hp.
    apply unpack_row_perm in Hun as [Hperm _]. rewrite Hperm in Hp.
    unfold pairs in Hp. apply list_elem_of_fmap in Hp as (s & -> & Hs).
    apply list_elem_of_lookup in Hs as [k Hk]. cbn.
    assert (slot_weight root ≠ NaN → wle (slot_weight s) (slot_weight root))
      as Hle by (intros Hn; by apply (max_heap_root r root Hheap Hroot Hn k)).
    split; [|done]. intros Hlt.
    destruct (wlt_not_nan _ _ Hlt) as [Hn _].
    by apply (wle_not_wlt _ _ (Hle Hn)).
Qed.

Lemma deheap_sort_last_is_root_witness :
  ∃ h' out r',
    deheap_sort [[Slot 1 (Fin 5) 1; Slot 3 (Fin 4) 1; Slot 2 (Fin 3) 1]]
    = Some (h', out) ∧ h' !! 0%nat = Some r' ∧
    last (pairs r') = Some (1, Fin 5) ∧
    (max_heap [Slot 1 (Fin 5) 1; Slot 3 (Fin 4) 1; Slot 2 (Fin 3) 1] →
     ∀ p, p ∈ pairs r' →
       ¬ wlt (Fin 5) p.2 ∧ (Fin 5 ≠ NaN → wle p.2 (Fin 5))).
Proof.
  apply (deheap_sort_last_is_root
           [[Slot 1 (Fin 5) 1; Slot 3 (Fin 4) 1; Slot 2 (Fin 3) 1]] 0
           [Slot 1 (Fin 5) 1; Slot 3 (Fin 4) 1; Slot 2 (Fin 3) 1]
           (Slot 1 (Fin 5) 1)); reflexivity.
Defined.

(** ** The outcomes of [heap_push] *)

(** An accepted push: the row loses its root and gains the pushed slot. *)
Lemma heap_push_accepted (h : heap) (row : nat) (weight : float)
    (index flag : Z) (h' : heap) :
  heap_push h row weight index flag = Some (h', 1) →
  ∃ root rest r',
    h !! row = Some (root :: rest) ∧ h' = <[row := r']> h ∧
    r' ≡ₚ Slot index weight flag :: rest ∧
    ¬ wgt weight (slot_weight root) ∧ index ∉ indices (root :: rest).
Proof.
  intros H. apply heap_push_inv in H
    as (r & root & Hr & Hroot &
        [(_ & ? & _)|(r1 & i & Hw & Hnew & Hd & -> & _)]); [done|].
  destruct r as [|root' rest]; [done|]. injection Hroot as ->.
  exists root, rest, (<[i := Slot index weight flag]> r1).
  split; [done|]. split; [done|]. split; [|done].
  rewrite (descend_perm _ _ _ _ _ _ _ Hd) by (simpl; lia). done.
Qed.

(** A push changes its row at most. *)
Lemma heap_push_other_rows (h : heap) (row : nat) (weight : float)
    (index flag : Z) (h' : heap) (count : Z) (k : nat) :
  heap_push h row weight index flag = Some (h', count) →
  k ≠ row → h' !! k = h !! k.
Proof.
  intros H Hk. apply heap_push_inv in H
    as (r & root & _ & _ & [(-> & _)|(r1 & i & _ & _ & _ & -> & _)]);
    [done|]. by apply list_lookup_insert_ne.
Qed.



(** A push returns 0, and then changes nothing, or 1. *)
Lemma heap_push_count (h : heap) (row : nat) (weight : float)
    (index flag : Z) (h' : heap) (count : Z) :
  heap_push h row weight index flag = Some (h', count) →
  count = 0 ∧ h' = h ∨ count = 1.
Proof.
  intros H. apply heap_push_inv in H
    as (r & root & _ & _ & [(-> & -> & _)|(r1 & i & _ & _ & _ & _ & ->)]);
    auto.
Qed.

(** X5: a call of [heap_push] returns 0 or 1, and with 0 it leaves the
    heap as it is; it writes in no other row than the one it is given, and
    it keeps the capacity of every row. *)
Theorem heap_push_frame (h : heap) (row : nat) (weight : float)
    (index flag : Z) (h' : heap) (count : Z) :
  heap_push h row weight index flag = Some (h', count) →
  (count = 0 ∧ h' = h ∨ count = 1) ∧
  length <$> h' = length <$> h ∧
  ∀ k, k ≠ row → h' !! k = h !! k.
Proof.
  intros H. split; [|split].
  - by apply heap_push_count in H.
  - by apply heap_push_shape in H.
  - intros k Hk. by apply (heap_push_other_rows h row weight index flag _ count).
Qed.

Lemma heap_push_frame_witness :
  (1 = 0 ∧
   [[Slot 1 (Fin 5) 1]; [Slot (-1) PInf 0]]
   = [[Slot (-1) PInf 0]; [Slot (-1) PInf 0]] ∨ 1 = 1) ∧
  length <$> [[Slot 1 (Fin 5) 1]; [Slot (-1) PInf 0]]
  = length <$> [[Slot (-1) PInf 0]; [Slot (-1) PInf 0]] ∧
  ∀ k, k ≠ 0%nat →
    [[Slot 1 (Fin 5) 1]; [Slot (-1) PInf 0]] !! k
    = [[Slot (-1) PInf 0]; [Slot (-1) PInf 0]] !! k.
Proof.
  apply (heap_push_frame [[Slot (-1) PInf 0]; [Slot (-1) PInf 0]]
           0 (Fin 5) 1 1).
  reflexivity.
Defined.




(** The root of a row with no NaN. *)
Lemma no_nan_root (r : list slot) (root : slot) :
  no_nan r → r !! 0%nat = Some root → slot_weight root ≠ NaN.
Proof. intros Hnn Hroot. by apply (Forall_lookup_1 _ _ _ _ Hnn Hroot). Qed.

(** X8: in a heap that [make_heap] and calls of [heap_push] with weights
    that are not NaN produce, the root of a row holds a greatest weight of
    the row. *)
Theorem pushed_root_max (h : heap) (r : list slot) (root s : slot) :
  pushed_no_nan h → r ∈ h → r !! 0%nat = Some root → s ∈ r →
  wle (slot_weight s) (slot_weight root).
Proof.
  intros Hp Hr Hroot Hs. apply pushed_row_inv in Hp.
  rewrite Forall_forall in Hp. destruct (Hp r Hr) as (Hheap & _ & Hnn).
  apply list_elem_of_lookup in Hs as [i Hi].
  apply (max_heap_root r root Hheap Hroot) with (i := i); [|done].
  by apply (no_nan_root r).
Qed.

Lemma pushed_root_max_witness :
  wle (slot_weight (Slot 2 (Fin 3) 1)) (slot_weight (Slot 1 (Fin 5) 1)).
Proof.
  apply (pushed_root_max
           [[Slot 1 (Fin 5) 1; Slot 3 (Fin 4) 1; Slot 2 (Fin 3) 1]]
           [Slot 1 (Fin 5) 1; Slot 3 (Fin 4) 1; Slot 2 (Fin 3) 1]).
  - apply (pushed_no_nan_push
             [[Slot (-1) PInf 0; Slot 1 (Fin 5) 1; Slot 2 (Fin 3) 1]]
             0 (Fin 4) 3 1 _ 1); [|discriminate|reflexivity].
    apply (pushed_no_nan_push
             [[Slot (-1) PInf 0; Slot 1 (Fin 5) 1; Slot (-1) PInf 0]]
             0 (Fin 3) 2 1 _ 1); [|discriminate|reflexivity].
    apply (pushed_no_nan_push (make_heap 1 3) 0 (Fin 5) 1 1 _ 1);
      [|discriminate|reflexivity].
    apply pushed_no_nan_make.
  - apply list_elem_of_here.
  - reflexivity.
  - apply list_elem_of_In. simpl. right. right. left. reflexivity.
Defined.

(** The slots of a row after a push: those of the row before, the root
    apart when the push returns 1, and the pushed slot. *)
Lemma heap_push_row_after (h : heap) (row : nat) (r : list slot)
    (root : slot) (weight : float) (index flag : Z) (h' : heap) (count : Z)
    (r' : list slot) (s : slot) :
  heap_push h row weight index flag = Some (h', count) →
  h !! row = Some r → r !! 0%nat = Some root →
  h' !! row = Some r' → s ∈ r' →
  s ∈ r ∨ (s = Slot index weight flag ∧ ¬ wgt weight (slot_weight root)).
Proof.
  intros H Hr Hroot Hr' Hs.
  destruct (heap_push_count h row weight index flag h' count H)
    as [[-> ->]| ->].
  { left. congruence. }
  apply heap_push_accepted in H
    as (root0 & rest & r0 & Hr0 & -> & Hperm & Hw & _).
  rewrite Hr in Hr0. injection Hr0 as ->. injection Hroot as ->.
  rewrite list_lookup_insert_eq in Hr' by (by eapply lookup_lt_Some).
  injection Hr' as ->. rewrite Hperm in Hs.
  apply elem_of_cons in Hs as [->|Hs].
  - by right.
  - left. by apply list_elem_of_further.
Qed.

(** No slot of a max-heap row with no NaN is, after the push of a weight
    that is not NaN, above the weight that the root held before. *)
Lemma heap_push_row_bounded (h : heap) (row : nat) (r : list slot)
    (root : slot) (weight : float) (index flag : Z) (h' : heap)
    (count : Z) :
  row_inv r → weight ≠ NaN → h !! row = Some r → r !! 0%nat = Some root →
  heap_push h row weight index flag = Some (h', count) →
  ∃ r', h' !! row = Some r' ∧
    ∀ s, s ∈ r' → wle (slot_weight s) (slot_weight root).
Proof.
  intros (Hheap & _ & Hnn) Hwn Hr Hroot H.
  pose proof (no_nan_root r root Hnn Hroot) as Hrn.
  assert (is_Some (h' !! row)) as [r' Hr'].
  { apply lookup_lt_is_Some. apply lookup_lt_Some in Hr.
    apply heap_push_shape in H. unfold shape in H.
    apply (f_equal length) in H. rewrite !length_fmap in H. lia. }
  exists r'. split; [done|]. intros s Hs.
  destruct (heap_push_row_after _ _ _ _ _ _ _ _ _ _ s H Hr Hroot Hr' Hs)
    as [Hin|[-> Hw]]; [|by apply wle_of_not_wlt].
  apply list_elem_of_lookup in Hin as [i Hi].
  by apply (max_heap_root r root Hheap Hroot Hrn i).
Qed.

(** X9: a push of a weight that is not NaN does not raise the greatest
    weight of a row: in a heap that [make_heap] and calls of [heap_push]
    with weights that are not NaN produce, no slot of the row after the
    push is above the weight that the root of the row held before. *)
Theorem heap_push_bounded (h : heap) (row : nat) (r : list slot)
    (root : slot) (weight : float) (index flag : Z) (h' : heap)
    (count : Z) :
  pushed_no_nan h → weight ≠ NaN →
  h !! row = Some r → r !! 0%nat = Some root →
  heap_push h row weight index flag = Some (h', count) →
  ∃ r', h' !! row = Some r' ∧
    ∀ s, s ∈ r' → wle (slot_weight s) (slot_weight root).
Proof.
  intros Hp Hwn Hr Hroot H.
  apply (pushed_row_inv h) in Hp. rewrite Forall_forall in Hp.
  assert (row_inv r) as Hinv by (by eapply Hp, list_elem_of_lookup_2).
  by apply (heap_push_row_bounded h row r root weight index flag h' count).
Qed.

Lemma heap_push_bounded_witness :
  ∃ r', [[Slot 1 (Fin 5) 1; Slot 3 (Fin 4) 1; Slot 2 (Fin 3) 1]] !! 0%nat
        = Some r' ∧
    ∀ s, s ∈ r' → wle (slot_weight s) (slot_weight (Slot (-1) PInf 0)).
Proof.
  apply (heap_push_bounded
           [[Slot (-1) PInf 0; Slot 1 (Fin 5) 1; Slot 2 (Fin 3) 1]] 0
           [Slot (-1) PInf 0; Slot 1 (Fin 5) 1; Slot 2 (Fin 3) 1]
           (Slot (-1) PInf 0) (Fin 4) 3 1 _ 1);
    [|discriminate|reflexivity..].
  apply (pushed_no_nan_push
           [[Slot (-1) PInf 0; Slot 1 (Fin 5) 1; Slot (-1) PInf 0]]
           0 (Fin 3) 2 1 _ 1); [|discriminate|reflexivity].
  apply (pushed_no_nan_push (make_heap 1 3) 0 (Fin 5) 1 1 _ 1);
    [|discriminate|reflexivity].
  apply pushed_no_nan_make.
Defined.

(** X10: an index that a push has put in a row is refused there by the
    next push, whatever its weight and its flag: the call returns 0 and
    leaves the heap as it is. *)
Theorem heap_push_again (h : heap) (row : nat) (weight weight' : float)
    (index flag flag' : Z) (h' : heap) :
  heap_push h row weight index flag = Some (h', 1) →
  heap_push h' row weight' index flag' = Some (h', 0).
Proof.
  intros H. apply heap_push_accepted in H
    as (root & rest & r' & Hr & -> & Hperm & _).
  assert (Slot index weight flag ∈ r') as Hin
    by (rewrite Hperm; apply list_elem_of_here).
  assert (∃ root', r' !! 0%nat = Some root') as [root' Hroot'].
  { destruct r' as [|s r']; [inversion Hin | by exists s]. }
  apply (heap_push_rejected _ row r' root').
  - apply list_lookup_insert_eq. by eapply lookup_lt_Some.
  - done.
  - right. apply index_present_elem_of. unfold indices.
    apply list_elem_of_fmap. by exists (Slot index weight flag).
Qed.

Lemma heap_push_again_witness :
  heap_push [[Slot 1 (Fin 5) 1; Slot 3 (Fin 4) 1; Slot 2 (Fin 3) 1]]
    0 (Fin 1) 3 0
  = Some ([[Slot 1 (Fin 5) 1; Slot 3 (Fin 4) 1; Slot 2 (Fin 3) 1]], 0).
Proof.
  apply (heap_push_again
           [[Slot (-1) PInf 0; Slot 1 (Fin 5) 1; Slot 2 (Fin 3) 1]]
           0 (Fin 4) (Fin 1) 3 1 0).
  reflexivity.
Defined.

(** X11: the rows keep the entries of least weight when no pushed weight
    is NaN: once a push has evicted a slot from a row, no slot of that
    row, after any further pushes, is above the weight of the evicted
    slot. *)
Theorem evicted_above_row (h : heap) (row : nat) (e : slot) (r : list slot)
    (s : slot) :
  evicted h row e → h !! row = Some r → s ∈ r →
  wle (slot_weight s) (slot_weight e).
Proof.
  intros Hev. revert r s.
  induction Hev
    as [h row weight index flag h' root rest Hp Hwn H Hr
       |h row e row' weight index flag h' count Hev IH Hwn H];
    intros r' s Hr' Hs.
  - apply (pushed_row_inv h) in Hp. rewrite Forall_forall in Hp.
    assert (row_inv (root :: rest)) as Hinv
      by (by eapply Hp, list_elem_of_lookup_2).
    destruct (heap_push_row_bounded h row (root :: rest) root weight index
                flag h' 1 Hinv Hwn Hr eq_refl H) as (r0 & Hr0 & Hle).
    rewrite Hr' in Hr0. injection Hr0 as <-. by apply Hle.
  - destruct (decide (row = row')) as [<-|Hne].
    + assert (is_Some (h !! row)) as [r Hr].
      { apply heap_push_inv in H as (r & _ & Hr & _). by exists r. }
      assert (∃ root, r !! 0%nat = Some root) as [root Hroot].
      { apply heap_push_inv in H as (r0 & root & Hr0 & Hroot & _).
        exists root. congruence. }
      destruct (heap_push_row_after _ _ _ _ _ _ _ _ _ _ s H Hr Hroot Hr' Hs)
        as [Hin|[-> Hw]]; [by apply (IH r)|].
      assert (wle (slot_weight root) (slot_weight e)) as Hroot_e
        by (apply (IH r); [done|]; by eapply list_elem_of_lookup_2).
      apply (wle_trans _ (slot_weight root)); [|done].
      apply wle_of_not_wlt; [|done..].
      by apply wle_not_nan in Hroot_e as [? _].
    + apply (IH r'); [|done].
      by rewrite <- (heap_push_other_rows _ _ _ _ _ _ _ row H).
Qed.

Lemma evicted_above_row_witness :
  wle (slot_weight (Slot 2 (Fin 3) 1)) (slot_weight (Slot 1 (Fin 5) 1)).
Proof.
  apply (evicted_above_row [[Slot 3 (Fin 4) 1; Slot 2 (Fin 3) 1]] 0
           (Slot 1 (Fin 5) 1) [Slot 3 (Fin 4) 1; Slot 2 (Fin 3) 1]).
  - apply (evicted_now [[Slot 1 (Fin 5) 1; Slot 2 (Fin 3) 1]]
             0 (Fin 4) 3 1 _ (Slot 1 (Fin 5) 1) [Slot 2 (Fin 3) 1]);
      [|discriminate|reflexivity..].
    apply (pushed_no_nan_push [[Slot (-1) PInf 0; Slot 1 (Fin 5) 1]]
             0 (Fin 3) 2 1 _ 1); [|discriminate|reflexivity].
    apply (pushed_no_nan_push (make_heap 1 2) 0 (Fin 5) 1 1 _ 1);
      [|discriminate|reflexivity].
    apply pushed_no_nan_make.
  - reflexivity.
  - apply list_elem_of_In. simpl. right. left. reflexivity.
Defined.



(** ** Calls of [smallest_flagged] *)

(** The two ways out of [smallest_flagged] on a row of the heap. *)
Lemma smallest_flagged_cases (h : heap) (row : nat) (r : list slot) :
  h !! row = Some r →
  ((∀ s, s ∈ r → ¬ selectable s) ∧ selected r = None ∧
   smallest_flagged h row = Some (h, -1))
  ∨ (∃ k s,
       r !! k = Some s ∧ selectable s ∧
       (∀ j s', r !! j = Some s' → slot_is_new s' ≠ 0 →
          ¬ wlt (slot_weight s') (slot_weight s)) ∧
       selected r = Some s ∧
       smallest_flagged h row
       = Some (<[row := <[k := clear_flag s]> r]> h, slot_index s)).
Proof.
  intros Hr. unfold selected.
  destruct (result_index_spec r)
    as [[Hnone Hri]|(k & s & Hk & Hsel & Hmin & Hri)].
  - left. split; [done|]. rewrite Hri. split; [done|].
    by apply (smallest_flagged_none h row r).
  - right. exists k, s. rewrite Hri.
    destruct (Z.leb_spec 0 (Z.of_nat k)); [|lia]. rewrite Nat2Z.id.
    repeat split; try done; try apply Hsel.
    by apply smallest_flagged_selected.
Qed.

Lemma pairs_clear_flag (r : list slot) (k : nat) (s : slot) :
  r !! k = Some s → pairs (<[k := clear_flag s]> r) = pairs r.
Proof.
  intros Hk. unfold pairs. rewrite list_fmap_insert.
  apply list_insert_id. by rewrite list_lookup_fmap, Hk.
Qed.

(** X12: [smallest_flagged] writes flags only: the indices and the weights
    of every slot of the heap are after the call what they were before,
    and so are the rows other than the one it is given in full. *)
Theorem smallest_flagged_frame (h : heap) (row : nat) (h' : heap) (v : Z) :
  smallest_flagged h row = Some (h', v) →
  pairs <$> h' = pairs <$> h ∧ ∀ k, k ≠ row → h' !! k = h !! k.
Proof.
  intros H. destruct (h !! row) as [r|] eqn:Hr.
  - destruct (smallest_flagged_cases h row r Hr)
      as [(_ & _ & H')|(k & s & Hk & _ & _ & _ & H')];
      rewrite H' in H; injection H as <- <-; [done|].
    split.
    + rewrite list_fmap_insert, (pairs_clear_flag r k s Hk).
      apply list_insert_id. by rewrite list_lookup_fmap, Hr.
    + intros k' Hne. by apply list_lookup_insert_ne.
  - unfold smallest_flagged in H. by rewrite Hr in H.
Qed.

Lemma smallest_flagged_frame_witness :
  pairs <$> [[Slot 1 (Fin 5) 1; Slot 3 (Fin 4) 0]]
  = pairs <$> [[Slot 1 (Fin 5) 1; Slot 3 (Fin 4) 1]] ∧
  ∀ k, k ≠ 0%nat →
    [[Slot 1 (Fin 5) 1; Slot 3 (Fin 4) 0]] !! k
    = [[Slot 1 (Fin 5) 1; Slot 3 (Fin 4) 1]] !! k.
Proof.
  apply (smallest_flagged_frame [[Slot 1 (Fin 5) 1; Slot 3 (Fin 4) 1]] 0
           [[Slot 1 (Fin 5) 1; Slot 3 (Fin 4) 0]] 3).
  reflexivity.
Defined.

(** X13: [smallest_flagged] returns the candidates of a row in ascending
    order of weight: what a call returns is the index of the slot it
    selects, and the slot that the next call on the row selects is not
    below it in weight. *)
Theorem smallest_flagged_ascending (h : heap) (row : nat) (r : list slot)
    (h1 : heap) (v : Z) (r1 : list slot) (s s1 : slot) :
  h !! row = Some r → smallest_flagged h row = Some (h1, v) →
  h1 !! row = Some r1 → selected r = Some s → selected r1 = Some s1 →
  v = slot_index s ∧ wle (slot_weight s) (slot_weight s1).
Proof.
  intros Hr H Hr1 Hs Hs1.
  destruct (smallest_flagged_cases h row r Hr)
    as [(_ & Hnone & _)|(k & s' & Hk & Hsel & Hmin & Hs' & H')];
    [congruence|].
  rewrite Hs in Hs'. injection Hs' as <-.
  rewrite H' in H. injection H as <- <-. split; [done|].
  rewrite list_lookup_insert_eq in Hr1 by (by eapply lookup_lt_Some).
  injection Hr1 as <-.
  destruct (smallest_flagged_cases
              (<[row := <[k := clear_flag s]> r]> h) row
              (<[k := clear_flag s]> r))
    as [(_ & Hnone & _)|(k1 & s1' & Hk1 & [Hf1 Hlt1] & _ & Hs1' & _)].
  { apply list_lookup_insert_eq. by eapply lookup_lt_Some. }
  { congruence. }
  rewrite Hs1 in Hs1'. injection Hs1' as <-.
  destruct (decide (k1 = k)) as [->|Hne].
  - rewrite list_lookup_insert_eq in Hk1 by (by eapply lookup_lt_Some).
    injection Hk1 as <-. done.
  - rewrite list_lookup_insert_ne in Hk1 by done.
    apply selectable_least; [done| |by apply (Hmin k1)].
    by apply wlt_not_nan in Hlt1 as [? _].
Qed.

Lemma smallest_flagged_ascending_witness :
  3 = slot_index (Slot 3 (Fin 4) 1) ∧
  wle (slot_weight (Slot 3 (Fin 4) 1)) (slot_weight (Slot 1 (Fin 5) 1)).
Proof.
  apply (smallest_flagged_ascending
           [[Slot 1 (Fin 5) 1; Slot 3 (Fin 4) 1]] 0
           [Slot 1 (Fin 5) 1; Slot 3 (Fin 4) 1]
           [[Slot 1 (Fin 5) 1; Slot 3 (Fin 4) 0]] 3
           [Slot 1 (Fin 5) 1; Slot 3 (Fin 4) 0]); reflexivity.
Defined.

Lemma selectable_test (s : slot) :
  negb (slot_is_new s =? 0) && wlt (slot_weight s) PInf = true
  ↔ selectable s.
Proof.
  unfold selectable. rewrite andb_true_iff, negb_true_iff, Z.eqb_neq.
  split; intros [? ?]; split; try done; by apply Is_true_true.
Qed.

Lemma selectable_count_zero (r : list slot) :
  selectable_count r = 0%nat → ∀ s, s ∈ r → ¬ selectable s.
Proof.
  induction r as [|a r IH]; intros H s Hs; [inversion Hs|].
  cbn [selectable_count] in H.
  destruct (negb (slot_is_new a =? 0) && wlt (slot_weight a) PInf) eqn:Ha;
    [lia|].
  apply elem_of_cons in Hs as [->|Hs].
  - rewrite <- selectable_test. congruence.
  - apply IH; [lia | done].
Qed.

Lemma selectable_count_length (r : list slot) :
  (selectable_count r ≤ length r)%nat.
Proof.
  induction r as [|a r IH]; [done|]. cbn [selectable_count length].
  destruct (_ && _); lia.
Qed.

(** Clearing the flag of a slot that can be selected leaves one such slot
    fewer. *)
Lemma selectable_count_clear (r : list slot) (k : nat) (s : slot) :
  r !! k = Some s → selectable s →
  S (selectable_count (<[k := clear_flag s]> r)) = selectable_count r.
Proof.
  revert k. induction r as [|a r IH]; intros [|k] Hk Hsel; try done.
  - injection Hk as ->. cbn.
    rewrite (proj2 (selectable_test s) Hsel). done.
  - change (<[S k := clear_flag s]> (a :: r))
      with (a :: <[k := clear_flag s]> r).
    cbn [selectable_count]. specialize (IH k Hk Hsel).
    destruct (negb (slot_is_new a =? 0) && wlt (slot_weight a) PInf); lia.
Qed.

Lemma selectable_count_none (r : list slot) :
  (∀ s, s ∈ r → ¬ selectable s) → selectable_count r = 0%nat.
Proof.
  induction r as [|a r IH]; intros Hnone; [done|]. cbn [selectable_count].
  destruct (_ && _) eqn:Ha.
  - destruct (Hnone a); [apply list_elem_of_here|]. by apply selectable_test.
  - rewrite IH; [done|]. intros s Hs. apply Hnone.
    by apply list_elem_of_further.
Qed.

(** [n] calls drain a row that has [n] slots to select at most. *)
Lemma repeat_smallest_flagged_drains (n : nat) (h : heap) (row : nat)
    (r : list slot) :
  h !! row = Some r → (selectable_count r ≤ n)%nat →
  ∃ h' r',
    repeat_smallest_flagged n h row = Some h' ∧
    pairs <$> h' = pairs <$> h ∧
    h' !! row = Some r' ∧ selectable_count r' = 0%nat.
Proof.
  revert h r. induction n as [|n IH]; intros h r Hr Hn.
  { exists h, r. repeat split; [done | lia]. }
  cbn [repeat_smallest_flagged].
  destruct (smallest_flagged_cases h row r Hr)
    as [(Hnone & _ & ->)|(k & s & Hk & Hsel & _ & _ & ->)]; cbn.
  - apply (IH h r Hr). rewrite (selectable_count_none r Hnone). lia.
  - pose proof (selectable_count_clear r k s Hk Hsel) as Hc.
    destruct (IH (<[row := <[k := clear_flag s]> r]> h)
                (<[k := clear_flag s]> r))
      as (h' & r' & Hrep & Hp & Hr' & Hz).
    + apply list_lookup_insert_eq. by eapply lookup_lt_Some.
    + lia.
    + exists h', r'. split; [done|]. split; [|done].
      rewrite Hp, list_fmap_insert, (pairs_clear_flag r k s Hk).
      apply list_insert_id. by rewrite list_lookup_fmap, Hr.
Qed.

(** X14: as many calls of [smallest_flagged] as a row has slots exhaust
    the row: they all return, the call that follows returns -1 and leaves
    the heap as it is, and the indices and the weights of the heap are
    what they were before the calls. *)
Theorem smallest_flagged_exhausts (h : heap) (row : nat) (r : list slot) :
  h !! row = Some r →
  ∃ h',
    repeat_smallest_flagged (length r) h row = Some h' ∧
    smallest_flagged h' row = Some (h', -1) ∧
    pairs <$> h' = pairs <$> h.
Proof.
  intros Hr.
  destruct (repeat_smallest_flagged_drains (length r) h row r Hr)
    as (h' & r' & Hrep & Hp & Hr' & Hz); [apply selectable_count_length|].
  exists h'. split; [done|]. split; [|done].
  destruct (smallest_flagged_cases h' row r' Hr')
    as [(_ & _ & ->)|(k & s & Hk & Hsel & _)]; [done|].
  destruct (selectable_count_zero r' Hz s); [|done].
  by eapply list_elem_of_lookup_2.
Qed.

Lemma smallest_flagged_exhausts_witness :
  ∃ h',
    repeat_smallest_flagged 2 [[Slot 1 (Fin 5) 1; Slot 3 (Fin 4) 1]] 0
    = Some h' ∧
    smallest_flagged h' 0 = Some (h', -1) ∧
    pairs <$> h' = pairs <$> [[Slot 1 (Fin 5) 1; Slot 3 (Fin 4) 1]].
Proof.
  apply (smallest_flagged_exhausts [[Slot 1 (Fin 5) 1; Slot 3 (Fin 4) 1]] 0
           [Slot 1 (Fin 5) 1; Slot 3 (Fin 4) 1]).
  reflexivity.
Defined.

(** The max-heap property and the distinct indices of a row are those of
    its (index, weight) pairs. *)
Lemma pairs_row_inv (r r' : list slot) :
  pairs r' = pairs r →
  max_heap r ∧ distinct_indices r → max_heap r' ∧ distinct_indices r'.
Proof.
  intros Hp [Hheap Hdist].
  assert (∀ i s', r' !! i = Some s' →
            ∃ s, r !! i = Some s ∧ slot_index s = slot_index s' ∧
                 slot_weight s = slot_weight s') as Hlook.
  { intros i s' Hi. apply (f_equal (λ l, l !! i)) in Hp.
    unfold pairs in Hp. rewrite !list_lookup_fmap, Hi in Hp.
    destruct (r !! i) as [s|]; [|done]. cbn in Hp.
    injection Hp as Hidx Hw. by exists s. }
  split.
  - intros p c Hc sp' sc' Hsp Hsc.
    destruct (Hlook p sp' Hsp) as (sp & Hp1 & _ & <-).
    destruct (Hlook c sc' Hsc) as (sc & Hc1 & _ & <-).
    by apply (Hheap p c Hc).
  - intros i j si' sj' Hi Hj Heq Hne.
    destruct (Hlook i si' Hi) as (si & Hi1 & Hii & _).
    destruct (Hlook j sj' Hj) as (sj & Hj1 & Hjj & _).
    apply (Hdist i j si sj); congruence.
Qed.

(** X15: [smallest_flagged] keeps the rows what [heap_push] needs them to
    be: when every row of the heap is a max-heap with distinct indices, so
    is every row after the call. *)
Theorem smallest_flagged_keeps_invariant (h : heap) (row : nat) (h' : heap)
    (v : Z) :
  (∀ r, r ∈ h → max_heap r ∧ distinct_indices r) →
  smallest_flagged h row = Some (h', v) →
  ∀ r', r' ∈ h' → max_heap r' ∧ distinct_indices r'.
Proof.
  intros Hinv H r' Hr'.
  assert (pairs <$> h' = pairs <$> h) as Hp.
  { destruct (h !! row) as [r|] eqn:Hr.
    - destruct (smallest_flagged_cases h row r Hr)
        as [(_ & _ & H')|(k & s & Hk & _ & _ & _ & H')];
        rewrite H' in H; injection H as <- <-; [done|].
      rewrite list_fmap_insert, (pairs_clear_flag r k s Hk).
      apply list_insert_id. by rewrite list_lookup_fmap, Hr.
    - unfold smallest_flagged in H. by rewrite Hr in H. }
  apply list_elem_of_lookup in Hr' as [i Hi].
  apply (f_equal (λ l, l !! i)) in Hp.
  rewrite !list_lookup_fmap, Hi in Hp.
  destruct (h !! i) as [r|] eqn:Hr; [|done]. cbn in Hp. injection Hp as Hp.
  apply (pairs_row_inv r r' Hp). apply Hinv. by eapply list_elem_of_lookup_2.
Qed.

Lemma smallest_flagged_keeps_invariant_witness :
  max_heap [Slot 1 (Fin 5) 0] ∧ distinct_indices [Slot 1 (Fin 5) 0].
Proof.
  apply (smallest_flagged_keeps_invariant [[Slot 1 (Fin 5) 1]] 0
           [[Slot 1 (Fin 5) 0]] 1); [|reflexivity|apply list_elem_of_here].
  intros r Hr.
  assert (pushed_no_nan [[Slot 1 (Fin 5) 1]]) as Hp.
  { apply (pushed_no_nan_push (make_heap 1 1) 0 (Fin 5) 1 1 _ 1);
      [|discriminate|reflexivity].
    apply pushed_no_nan_make. }
  apply pushed_row_inv in Hp. rewrite Forall_forall in Hp.
  split; [apply (Hp r Hr) | apply row_inv_distinct, (Hp r Hr)].
Defined.

(** ** The words of the random state *)

Lemma word32_land (x : Z) : word32 (Z.land x 0xffffffff).
Proof.
  unfold word32. change 0xffffffff with (Z.ones 32).
  rewrite Z.land_ones by lia. apply Z.mod_pos_bound. lia.
Qed.

Lemma word32_lxor (a b : Z) : word32 a → word32 b → word32 (Z.lxor a b).
Proof.
  unfold word32. intros [Ha Ha'] [Hb Hb'].
  assert (0 ≤ Z.lxor a b) as Hnn by (by apply Z.lxor_nonneg).
  split; [done|].
  destruct (Z.eq_dec (Z.lxor a b) 0) as [->|Hne]; [lia|].
  apply Z.log2_lt_pow2; [lia|].
  pose proof (Z.log2_lxor a b Ha Hb) as Hlog.
  assert (Z.log2 a < 32) as Hla.
  { destruct (Z.eq_dec a 0) as [->|?]; [done|]. apply Z.log2_lt_pow2; lia. }
  assert (Z.log2 b < 32) as Hlb.
  { destruct (Z.eq_dec b 0) as [->|?]; [done|]. apply Z.log2_lt_pow2; lia. }
  lia.
Qed.

Lemma word32_shiftr (x c : Z) : 0 ≤ c → word32 x → word32 (Z.shiftr x c).
Proof.
  unfold word32. intros Hc [Hx Hx']. rewrite Z.shiftr_div_pow2 by done.
  assert (0 < 2 ^ c) by (apply Z.pow_pos_nonneg; lia).
  split; [by apply Z.div_pos|].
  apply (Z.le_lt_trans _ x); [|done].
  apply Z.div_le_upper_bound; [done|]. nia.
Qed.

Lemma word32_tau_word (m a b c s : Z) :
  0 ≤ c → word32 s → word32 (tau_word m a b c s).
Proof.
  intros Hc Hs. unfold tau_word.
  apply word32_lxor; [apply word32_land|].
  apply word32_shiftr; [done|].
  apply word32_lxor; [apply word32_land | done].
Qed.

Lemma tau_rand_int_keeps_word32 (state state' : RngState) (i : Z) :
  tau_rand_int state = Some (state', i) →
  Forall word32 (words state) → Forall word32 (words state').
Proof.
  unfold words.
  destruct state as [|s0 [|s1 [|s2 rest]]]; try done.
  rewrite tau_rand_int_cons. intros [= <- _]. cbn [take].
  intros Ha. inversion_clear Ha as [|? ? H0 Hb].
  inversion_clear Hb as [|? ? H1 Hc]. inversion_clear Hc as [|? ? H2 _].
  constructor; [by apply word32_tau_word|].
  constructor; [by apply word32_tau_word|].
  constructor; [by apply word32_tau_word|]. constructor.
Qed.

(** X16: a state whose three words are within 32 bits keeps them so: after
    any calls of [tau_rand_int] and [tau_rand] on such a state, the three
    words are again within 32 bits. *)
Theorem run_calls_word32 (cs : list call) (state state' : RngState)
    (os : list output) :
  run_calls cs state = Some (state', os) →
  Forall word32 (words state) → Forall word32 (words state').
Proof.
  revert state os. induction cs as [|c cs IH]; intros state os H Hw.
  { by injection H as <- _. }
  cbn [run_calls] in H.
  destruct (run_call c state) as [[state1 o]|] eqn:Hc; [|done]. cbn in H.
  destruct (run_calls cs state1) as [[state2 os2]|] eqn:Hcs; [|done].
  cbn in H. injection H as <- _.
  apply (IH state1 os2 Hcs).
  destruct c; unfold run_call, tau_rand in Hc;
    destruct (tau_rand_int state) as [[state3 i]|] eqn:Hi; try done;
    cbn in Hc; injection Hc as <- _;
    by apply (tau_rand_int_keeps_word32 state state3 i).
Qed.

Lemma run_calls_word32_witness :
  Forall word32 (words [940314211; 17379328; 225192966]).
Proof.
  apply (run_calls_word32 [CallTauRandInt; CallTauRand]
           [12345; 67890; 424242] _
           [OutInt (-244116106); OutFloat (879301221 # 2147483647)]).
  - vm_compute. reflexivity.
  - unfold words. cbn [take].
    constructor; [unfold word32; lia|].
    constructor; [unfold word32; lia|].
    constructor; [unfold word32; lia|]. constructor.
Defined.

(** X17: every value that [tau_rand] returns is between
    [-2147483648 / 2147483647] and 1. *)
Theorem tau_rand_range (state state' : RngState) (x : Q) :
  tau_rand state = Some (state', x) →
  (- (2147483648 # 2147483647) <= x)%Q ∧ (x <= 1)%Q.
Proof.
  unfold tau_rand. intros H.
  destruct (tau_rand_int state) as [[state1 i]|] eqn:Hi; [|done].
  cbn in H. injection H as _ <-.
  assert (- 2 ^ 31 ≤ i < 2 ^ 31) as Hrange.
  { destruct state as [|s0 [|s1 [|s2 rest]]]; try done.
    rewrite tau_rand_int_cons in Hi. injection Hi as _ <-.
    apply (wrap_range 32). lia. }
  unfold Qle, Qdiv, Qmult, Qinv, inject_Z. cbn. lia.
Qed.

Lemma tau_rand_range_witness :
  (- (2147483648 # 2147483647) <= -2147483647 # 2147483647)%Q ∧
  (-2147483647 # 2147483647 <= 1)%Q.
Proof.
  apply (tau_rand_range [524288; 0; 0] [2147483649; 0; 0]).
  reflexivity.
Defined.

(** ** Seeds below the least seeds of the generator *)

Lemma tau_word_zero_below (m a b c n : Z) :
  forallb (λ s, tau_word m a b c s =? 0) (seqZ 0 n) = true →
  ∀ s, 0 ≤ s < n → tau_word m a b c s = 0.
Proof.
  intros H s Hs. rewrite forallb_forall in H.
  apply Z.eqb_eq, H, list_elem_of_In, elem_of_seqZ. lia.
Qed.

Lemma tau_word_weak (s : Z) :
  (0 ≤ s < 2 → tau_word 4294967294 12 13 19 s = 0) ∧
  (0 ≤ s < 8 → tau_word 4294967288 4 2 25 s = 0) ∧
  (0 ≤ s < 16 → tau_word 4294967280 17 3 11 s = 0).
Proof.
  repeat split; apply tau_word_zero_below; vm_compute; reflexivity.
Qed.

(** On a weak seed the generator returns 0 and leaves the three words at
    0, a weak seed again. *)
Lemma tau_rand_int_weak (state : RngState) :
  weak_seed state →
  ∃ state', tau_rand_int state = Some (state', 0) ∧ weak_seed state'.
Proof.
  intros (s0 & s1 & s2 & rest & -> & H0 & H1 & H2).
  exists (0 :: 0 :: 0 :: rest). rewrite tau_rand_int_cons.
  rewrite (proj1 (tau_word_weak s0) H0).
  rewrite (proj1 (proj2 (tau_word_weak s1)) H1).
  rewrite (proj2 (proj2 (tau_word_weak s2)) H2).
  split; [done|]. exists 0, 0, 0, rest. repeat split; lia.
Qed.

Lemma draw_sample_weak (fuel : nat) (pool_size : Z) (result : list Z)
    (rng_state : RngState) :
  weak_seed rng_state → 0 < pool_size →
  match draw_sample fuel pool_size result rng_state with
  | Returns (rng_state', j) => j = 0 ∧ (0 ∉ result) ∧ weak_seed rng_state'
  | Raises => False
  | OutOfFuel => True
  end.
Proof.
  intros Hweak Hpool. revert rng_state Hweak.
  induction fuel as [|fuel IH]; intros rng_state Hweak; [done|].
  cbn [draw_sample].
  destruct (tau_rand_int_weak rng_state Hweak) as (state' & -> & Hweak').
  destruct (Z.eqb_spec pool_size 0); [lia|].
  rewrite Z.mod_0_l by lia.
  destruct (sample_taken 0 result) eqn:Htaken; [by apply IH|].
  split; [done|]. split; [|done].
  intros Hin. apply sample_taken_elem_of in Hin. congruence.
Qed.

(** X18: the bound [n_samples <= pool_size] does not make
    [rejection_sample] return.  On a state whose words are below 2, 8 and
    16, [tau_rand_int] returns 0 and leaves such a state, so that every
    draw is 0: for two samples or more and a pool that is not empty, the
    second sample is never accepted, whatever the bound on the
    iterations. *)
Theorem rejection_sample_weak_seed (fuel n_samples : nat) (pool_size : Z)
    (rng_state : RngState) :
  weak_seed rng_state → 0 < pool_size → (2 ≤ n_samples)%nat →
  (∃ rng_state',
     tau_rand_int rng_state = Some (rng_state', 0) ∧ weak_seed rng_state') ∧
  rejection_sample fuel n_samples pool_size rng_state = OutOfFuel.
Proof.
  intros Hweak Hpool Hn. split; [by apply tau_rand_int_weak|].
  destruct n_samples as [|[|n]]; try lia.
  unfold rejection_sample. cbn [sample_loop].
  pose proof (draw_sample_weak fuel pool_size [] rng_state Hweak Hpool) as H1.
  destruct (draw_sample fuel pool_size [] rng_state)
    as [[rng_state1 j]| |]; [|done..].
  destruct H1 as (-> & _ & Hweak1). cbn [app].
  pose proof (draw_sample_weak fuel pool_size [0] rng_state1 Hweak1 Hpool)
    as H2.
  destruct (draw_sample fuel pool_size [0] rng_state1)
    as [[rng_state2 j]| |]; [|done..].
  destruct H2 as (_ & Hnotin & _). destruct Hnotin. apply list_elem_of_here.
Qed.

Lemma rejection_sample_weak_seed_witness :
  (∃ rng_state',
     tau_rand_int [1; 7; 15] = Some (rng_state', 0) ∧ weak_seed rng_state') ∧
  rejection_sample 1000 2 10 [1; 7; 15] = OutOfFuel.
Proof.
  apply (rejection_sample_weak_seed 1000 2 10 [1; 7; 15]).
  - exists 1, 7, 15, []. repeat split; lia.
  - lia.
  - lia.
Defined.

(** ** The exceptions of [rejection_sample] *)




(** ** The graph and the candidate heap after [build_candidates] *)

(** The loops of [build_candidates], as pushes of the edges and as writes
    of flags. *)
Lemma build_candidates_inv (current_graph : heap)
    (n_vertices n_neighbors max_candidates : nat) (rng_state : RngState)
    (graph' candidate_neighbors : heap) (rng_state' : RngState) :
  build_candidates current_graph n_vertices n_neighbors max_candidates
    rng_state
  = Some (graph', candidate_neighbors, rng_state') →
  run_all push_edge (graph_edges current_graph n_vertices n_neighbors)
    (make_heap n_vertices max_candidates, rng_state)
  = Some (candidate_neighbors, rng_state') ∧
  (∀ i j, (i < n_vertices)%nat → (j < n_neighbors)%nat →
     ∃ e, slot_at current_graph i j = Some e ∧
       slot_at graph' i j
       = Some (if slot_index e <? 0 then e else clear_flag e)) ∧
  (∀ i j, ¬ ((i < n_vertices)%nat ∧ (j < n_neighbors)%nat) →
     slot_at graph' i j = slot_at current_graph i j).
Proof.
  unfold build_candidates. rewrite for_range_nested. intros H.
  apply run_candidate_slots in H as (Hpush & Hin & Hout);
    [|apply NoDup_slots].
  split; [done|]. split.
  - intros i j Hi Hj. apply (Hin (i, j)). by apply elem_of_slots.
  - intros i j Hij. apply (Hout (i, j)). by rewrite elem_of_slots.
Qed.

(** X20: [build_candidates] writes flags of the graph only, and only those
    of the edges: after the call the slot [(i, j)] of the graph, for
    [i < n_vertices], [j < n_neighbors] and an index that is not negative,
    is the slot as it was with the flag 0, and every other slot of the
    graph is as it was. *)
Theorem build_candidates_graph (current_graph : heap)
    (n_vertices n_neighbors max_candidates : nat) (rng_state : RngState)
    (graph' candidate_neighbors : heap) (rng_state' : RngState) :
  build_candidates current_graph n_vertices n_neighbors max_candidates
    rng_state
  = Some (graph', candidate_neighbors, rng_state') →
  ∀ i j,
    slot_at graph' i j
    = (λ e, if (i <? n_vertices)%nat && (j <? n_neighbors)%nat
               && (0 <=? slot_index e)
            then clear_flag e else e) <$> slot_at current_graph i j.
Proof.
  intros H i j. apply build_candidates_inv in H as (_ & Hin & Hout).
  destruct (Nat.ltb_spec i n_vertices) as [Hi|Hi];
    [destruct (Nat.ltb_spec j n_neighbors) as [Hj|Hj]|].
  - destruct (Hin i j Hi Hj) as (e & -> & ->). cbn. f_equal.
    destruct (Z.ltb_spec (slot_index e) 0), (Z.leb_spec 0 (slot_index e));
      try done; lia.
  - rewrite Hout by lia. cbn. by destruct (slot_at current_graph i j).
  - rewrite Hout by lia. cbn. by destruct (slot_at current_graph i j).
Qed.

Lemma build_candidates_graph_witness :
  slot_at [[Slot 1 (Fin 1) 0; Slot (-1) PInf 0];
           [Slot 0 (Fin 2) 0; Slot 1 (Fin 3) 0]] 0 0
  = (λ e, if (0 <? 2)%nat && (0 <? 2)%nat && (0 <=? slot_index e)
          then clear_flag e else e)
    <$> slot_at [[Slot 1 (Fin 1) 1; Slot (-1) PInf 0];
                 [Slot 0 (Fin 2) 1; Slot 1 (Fin 3) 1]] 0 0.
Proof.
  eapply (build_candidates_graph
            [[Slot 1 (Fin 1) 1; Slot (-1) PInf 0];
             [Slot 0 (Fin 2) 1; Slot 1 (Fin 3) 1]] 2 2 2
            [12345; 67890; 424242]).
  vm_compute. reflexivity.
Defined.

(** The pushes of the edges keep the heap one that pushes produce; the
    weights they push are values of [tau_rand], none of which is NaN. *)
Lemma run_push_edges_pushed (es : list edge) (cand : heap) (st : RngState)
    (cand' : heap) (st' : RngState) :
  run_all push_edge es (cand, st) = Some (cand', st') →
  pushed_no_nan cand → pushed_no_nan cand' ∧ shape cand' = shape cand.
Proof.
  revert cand st. induction es as [|e es IH]; intros cand st H Hp.
  { by injection H as <- <-. }
  cbn [run_all] in H.
  destruct (push_edge e (cand, st)) as [[cand1 st1]|] eqn:He; [|done].
  cbn in H. unfold push_edge in He.
  destruct (tau_rand st) as [[st2 d]|]; [|done]. cbn in He.
  destruct (heap_push cand _ _ _ _) as [[cand2 c2]|] eqn:H2; [|done].
  cbn in He.
  destruct (heap_push cand2 _ _ _ _) as [[cand3 c3]|] eqn:H3; [|done].
  cbn in He. injection He as <- <-.
  destruct (IH cand3 st2 H) as [Hp' Hs'].
  - eapply pushed_no_nan_push; [| |exact H3]; [|discriminate].
    eapply pushed_no_nan_push; [| |exact H2]; [done|discriminate].
  - split; [done|]. rewrite Hs'.
    by rewrite (heap_push_shape _ _ _ _ _ _ _ H3),
               (heap_push_shape _ _ _ _ _ _ _ H2).
Qed.

(** X21: the heap that [build_candidates] returns is a heap as the other
    functions expect it: it has [n_vertices] rows of [max_candidates]
    slots, and each row is a max-heap on the weights with no index other
    than -1 in two slots. *)
Theorem build_candidates_heap (current_graph : heap)
    (n_vertices n_neighbors max_candidates : nat) (rng_state : RngState)
    (graph' candidate_neighbors : heap) (rng_state' : RngState) :
  build_candidates current_graph n_vertices n_neighbors max_candidates
    rng_state
  = Some (graph', candidate_neighbors, rng_state') →
  length candidate_neighbors = n_vertices ∧
  ∀ r, r ∈ candidate_neighbors →
    length r = max_candidates ∧ max_heap r ∧ distinct_indices r.
Proof.
  intros H. apply build_candidates_inv in H as (H & _).
  apply run_push_edges_pushed in H as [Hp Hshape];
    [|apply pushed_no_nan_make].
  unfold shape, make_heap in Hshape.
  rewrite fmap_replicate, length_replicate in Hshape.
  split.
  - apply (f_equal length) in Hshape.
    by rewrite length_fmap, length_replicate in Hshape.
  - intros r Hr. split.
    + assert (length r ∈ length <$> candidate_neighbors) as Hin
        by (apply list_elem_of_fmap; by exists r).
      rewrite Hshape in Hin. by apply elem_of_replicate_inv in Hin.
    + apply pushed_row_inv in Hp. rewrite Forall_forall in Hp.
      split; [apply (Hp r Hr) | apply row_inv_distinct, (Hp r Hr)].
Qed.

Lemma build_candidates_heap_witness :
  ∃ candidate_neighbors : heap,
    length candidate_neighbors = 2%nat ∧
    ∀ r, r ∈ candidate_neighbors →
      length r = 2%nat ∧ max_heap r ∧ distinct_indices r.
Proof.
  eexists.
  eapply (build_candidates_heap
            [[Slot 1 (Fin 1) 1; Slot (-1) PInf 0];
             [Slot 0 (Fin 2) 1; Slot 1 (Fin 3) 1]] 2 2 2
            [12345; 67890; 424242]).
  vm_compute. reflexivity.
Defined.

(** X22: [build_candidates] returns, with no access out of range, when
    the graph has the slots [(i, j)] for [i < n_vertices] and
    [j < n_neighbors], the indices in them are below [n_vertices], the
    candidate heap has room for one candidate at least and the random
    state has its three words. *)
Theorem build_candidates_returns (current_graph : heap)
    (n_vertices n_neighbors max_candidates : nat) (rng_state : RngState) :
  (∀ i j, (i < n_vertices)%nat → (j < n_neighbors)%nat →
     ∃ e, slot_at current_graph i j = Some e ∧
          slot_index e < Z.of_nat n_vertices) →
  (0 < max_candidates)%nat → (3 ≤ length rng_state)%nat →
  ∃ graph' candidate_neighbors rng_state',
    build_candidates current_graph n_vertices n_neighbors max_candidates
      rng_state
    = Some (graph', candidate_neighbors, rng_state').
Proof.
  intros Hg Hm Hst.
  destruct (build_candidates_total current_graph n_vertices n_neighbors
              max_candidates rng_state Hg Hm Hst) as [[[g' c'] st'] H].
  by exists g', c', st'.
Qed.

Lemma build_candidates_returns_witness :
  ∃ graph' candidate_neighbors rng_state',
    build_candidates [[Slot 1 (Fin 1) 1]; [Slot 0 (Fin 2) 1]] 2 1 2
      [12345; 67890; 424242]
    = Some (graph', candidate_neighbors, rng_state').
Proof.
  apply (build_candidates_returns [[Slot 1 (Fin 1) 1]; [Slot 0 (Fin 2) 1]]
           2 1 2 [12345; 67890; 424242]).
  - intros [|[|i]] [|j] Hi Hj; try lia.
    + exists (Slot 1 (Fin 1) 1). split; [reflexivity | simpl; lia].
    + exists (Slot 0 (Fin 2) 1). split; [reflexivity | simpl; lia].
  - lia.
  - simpl. lia.
Defined.

(** The slots of a heap after a push: those of the heap before, and the
    pushed slot in the row of the push. *)
Lemma heap_push_slots (h : heap) (row : nat) (weight : float)
    (index flag : Z) (h' : heap) (count : Z) (v : nat) (r' : list slot)
    (s : slot) :
  heap_push h row weight index flag = Some (h', count) →
  h' !! v = Some r' → s ∈ r' →
  (∃ r, h !! v = Some r ∧ s ∈ r) ∨
  (v = row ∧ s = Slot index weight flag).
Proof.
  intros H Hr' Hs.
  destruct (heap_push_count h row weight index flag h' count H)
    as [[-> ->]| ->].
  { left. by exists r'. }
  apply heap_push_accepted in H
    as (root & rest & r0 & Hr & -> & Hperm & _).
  destruct (decide (v = row)) as [->|Hne].
  - rewrite list_lookup_insert_eq in Hr' by (by eapply lookup_lt_Some).
    injection Hr' as ->. rewrite Hperm in Hs.
    apply elem_of_cons in Hs as [->|Hs]; [by right|].
    left. exists (root :: rest). split; [done|].
    by apply list_elem_of_further.
  - rewrite list_lookup_insert_ne in Hr' by done. left. by exists r'.
Qed.

(** The pushes of the edges put in the heap the two slots of each edge
    and no other. *)
Lemma run_push_edges_slots (P : nat → slot → Prop) (es : list edge)
    (cand : heap) (st : RngState) (cand' : heap) (st' : RngState) :
  run_all push_edge es (cand, st) = Some (cand', st') →
  (∀ v r s, cand !! v = Some r → s ∈ r → P v s) →
  (∀ e d, e ∈ es →
     P (edge_i e) (Slot (edge_nb e) (Fin d) (edge_flag e)) ∧
     P (Z.to_nat (edge_nb e))
       (Slot (Z.of_nat (edge_i e)) (Fin d) (edge_flag e))) →
  ∀ v r s, cand' !! v = Some r → s ∈ r → P v s.
Proof.
  revert cand st. induction es as [|e es IH]; intros cand st H Hcand Hes.
  { by injection H as <- <-. }
  cbn [run_all] in H.
  destruct (push_edge e (cand, st)) as [[cand1 st1]|] eqn:He; [|done].
  cbn in H. unfold push_edge in He.
  destruct (tau_rand st) as [[st2 d]|]; [|done]. cbn in He.
  destruct (heap_push cand _ _ _ _) as [[cand2 c2]|] eqn:H2; [|done].
  cbn in He.
  destruct (heap_push cand2 _ _ _ _) as [[cand3 c3]|] eqn:H3; [|done].
  cbn in He. injection He as <- <-.
  destruct (Hes e d (list_elem_of_here _ _)) as [P1 P2].
  apply (IH cand3 st2 H).
  - intros v r s Hr Hs.
    destruct (heap_push_slots _ _ _ _ _ _ _ v r s H3 Hr Hs)
      as [(r2 & Hr2 & Hs2)|[-> ->]]; [|done].
    destruct (heap_push_slots _ _ _ _ _ _ _ v r2 s H2 Hr2 Hs2)
      as [(r1 & Hr1 & Hs1)|[-> ->]]; [|done].
    by apply (Hcand v r1).
  - intros e' d' He'. apply Hes. by apply list_elem_of_further.
Qed.

Lemma elem_of_graph_edges (graph : heap) (n_vertices n_neighbors : nat)
    (e : edge) :
  e ∈ graph_edges graph n_vertices n_neighbors →
  ∃ j s,
    (edge_i e < n_vertices)%nat ∧ (j < n_neighbors)%nat ∧
    slot_at graph (edge_i e) j = Some s ∧ 0 ≤ slot_index s ∧
    edge_nb e = slot_index s ∧ edge_flag e = slot_is_new s.
Proof.
  unfold graph_edges. rewrite list_elem_of_bind.
  intros ([i j] & He & [Hi Hj]%elem_of_slots).
  unfold edge_at in He. cbn [fst snd] in He.
  destruct (slot_at graph i j) as [s|] eqn:Hs; [|inversion He].
  destruct (Z.ltb_spec (slot_index s) 0); [inversion He|].
  apply list_elem_of_singleton in He as ->. cbn. by exists j, s.
Qed.

(** X23: the candidates of a vertex are its neighbors and the vertices
    that have it as a neighbor, as the docstring says: every slot of the
    row [v] of the heap that [build_candidates] returns is the slot of an
    empty heap, or holds, with the flag of the edge, the index of an edge
    of the graph from [v], or the vertex of an edge of the graph to
    [v]. *)
Theorem build_candidates_sound (current_graph : heap)
    (n_vertices n_neighbors max_candidates : nat) (rng_state : RngState)
    (graph' candidate_neighbors : heap) (rng_state' : RngState)
    (v : nat) (r : list slot) (s : slot) :
  build_candidates current_graph n_vertices n_neighbors max_candidates
    rng_state
  = Some (graph', candidate_neighbors, rng_state') →
  candidate_neighbors !! v = Some r → s ∈ r →
  s = empty_slot ∨ candidate_of current_graph n_vertices n_neighbors v s.
Proof.
  intros H. apply build_candidates_inv in H as (H & _).
  apply (run_push_edges_slots
           (λ v s, s = empty_slot
                   ∨ candidate_of current_graph n_vertices n_neighbors v s)
           _ _ _ _ _ H).
  - intros v' r' s' Hr' Hs'. left. unfold make_heap in Hr'.
    apply lookup_replicate_1 in Hr' as [-> _].
    by apply elem_of_replicate_inv in Hs'.
  - intros e d He.
    apply elem_of_graph_edges in He as (j & e0 & Hi & Hj & Hat & Hpos & -> & ->).
    split; right; exists (edge_i e), j, e0; repeat split; try done.
    + by left.
    + by right.
Qed.

Lemma build_candidates_sound_witness :
  Slot 0 (Fin (-244116106 # 2147483647)) 1 = empty_slot ∨
  candidate_of [[Slot 1 (Fin 1) 1; Slot (-1) PInf 0];
                [Slot 0 (Fin 2) 1; Slot 1 (Fin 3) 1]] 2 2 1
    (Slot 0 (Fin (-244116106 # 2147483647)) 1).
Proof.
  eapply (build_candidates_sound
            [[Slot 1 (Fin 1) 1; Slot (-1) PInf 0];
             [Slot 0 (Fin 2) 1; Slot 1 (Fin 3) 1]] 2 2 2
            [12345; 67890; 424242] _ _ _ 1).
  - vm_compute. reflexivity.
  - reflexivity.
  - apply list_elem_of_here.
Defined.
